(** * Scramble generators of the speed-cube scrambler bot

    A shallow embedding of [shared/scrambleGenerators.ts].  The generators are
    written against [Math.random()]; here the random source is an explicit
    infinite stream of draws that a small state-and-failure monad threads
    through the code, so "for every random stream" is a universal
    quantification over [stream]. *)

From Stdlib Require Import ZArith QArith Qround List String Ascii Bool Lia Arith.
From Stdlib Require Import DecimalString.
Import ListNotations.

Close Scope Q_scope.
Open Scope list_scope.
Open Scope string_scope.

(* ================================================================= *)
(** ** The random source and the generator monad *)

(** One entry per call of [Math.random()], in call order. *)
Definition stream := nat -> Q.

(** [Math.random()] is specified to lie in [0, 1): the draw is the fractional
    part of the stream entry, so every stream is a legal source. *)
Definition unit_interval (q : Q) : Q := (q - inject_Z (Qfloor q))%Q.

(** How a run can stop without a value.  [EmptyPick]: [getRandomElement] was
    handed an empty array (JavaScript would carry on with [undefined]; the
    embedding stops the run there, so a run hits [EmptyPick] exactly when the
    first such call happens).  [TypeError]: a method call on [undefined].
    [OutOfFuel]: a [do ... while] retry loop used up its iteration budget. *)
Inductive failure := EmptyPick | TypeError | OutOfFuel.

Inductive outcome (A : Type) :=
| Done (a : A) (next : nat)
| Fail (e : failure).
Arguments Done {A} a next.
Arguments Fail {A} e.

(** A computation reads the stream from a position and returns the position
    of the first unread draw. *)
Definition Gen (A : Type) := stream -> nat -> outcome A.

Definition ret {A} (a : A) : Gen A := fun _ p => Done a p.

Definition bind {A B} (m : Gen A) (k : A -> Gen B) : Gen B :=
  fun s p => match m s p with
             | Done a p' => k a s p'
             | Fail e => Fail e
             end.

Definition fail {A} (e : failure) : Gen A := fun _ _ => Fail e.

Declare Scope gen_scope.
Delimit Scope gen_scope with gen.
Notation "x <- m ;; k" := (bind m (fun x => k))
  (at level 100, m at next level, right associativity) : gen_scope.
Open Scope gen_scope.

Definition Math_random : Gen Q := fun s p => Done (unit_interval (s p)) (S p).

(** [Math.floor(r * n)] for an array length or range width [n].  The product
    is exact here; JavaScript rounds it to a double, which can move the floor
    to a neighbouring index for some [r] but keeps it within [0, n).  The
    statements below hold for every stream, whichever index a draw selects,
    and the streams evaluated by name use dyadic draws, whose products with
    these small [n] are exact in double arithmetic too. *)
Definition floor_scaled (r : Q) (n : Z) : Z := Qfloor (r * inject_Z n)%Q.

(** [r < c] against a decimal threshold such as [0.6], read as [6 # 10]. *)
Definition Qlt_bool (r c : Q) : bool := negb (Qle_bool c r).

(** [getRandomInt(min, max)].  The bounds and the sum are integers here; the
    source adds doubles, which is the same arithmetic as long as the bounds
    and [max - min + 1] are integers a double holds exactly.  The generators
    call it with bounds between 0 and 11. *)
Definition getRandomInt (min max : Z) : Gen Z :=
  r <- Math_random ;;
  ret (floor_scaled r (max - min + 1) + min)%Z.

(** [getRandomElement(array)] *)
Definition getRandomElement {T} (array : list T) : Gen T :=
  r <- Math_random ;;
  match nth_error array (Z.to_nat (floor_scaled r (Z.of_nat (List.length array)))) with
  | Some x => ret x
  | None => fail EmptyPick
  end.

(** [for (let i = start; ...; i++)] running [n] times over a loop state. *)
Fixpoint for_loop {St} (n : nat) (i : nat) (body : nat -> St -> Gen St) (st : St) : Gen St :=
  match n with
  | O => ret st
  | S n' => st' <- body i st ;; for_loop n' (S i) body st'
  end.

(** [for (const x of xs)] over a loop state. *)
Fixpoint for_of {X St} (xs : list X) (body : X -> St -> Gen St) (st : St) : Gen St :=
  match xs with
  | [] => ret st
  | x :: xs' => st' <- body x st ;; for_of xs' body st'
  end.

(* ================================================================= *)
(** ** Strings, arrays and lookup tables *)

(** A non-empty string is truthy. *)
Definition truthy (s : string) : bool := negb (s =? "").

(** [array.includes(x)] *)
Definition includes (array : list string) (x : string) : bool :=
  existsb (String.eqb x) array.

(** [table[key]] on a [Record<string, V>]; [None] is [undefined]. *)
Fixpoint lookup {V} (key : string) (table : list (string * V)) : option V :=
  match table with
  | [] => None
  | (k, v) :: rest => if k =? key then Some v else lookup key rest
  end.

(** [table[key] = v]: overwrite in place, or append a new key. *)
Fixpoint assign (key v : string) (table : list (string * string)) : list (string * string) :=
  match table with
  | [] => [(key, v)]
  | (k, w) :: rest => if k =? key then (k, v) :: rest else (k, w) :: assign key v rest
  end.

(** [array.join(' ')] *)
Definition join (array : list string) : string := String.concat " " array.

(** [s.split(c)] *)
Fixpoint split_on (c : ascii) (s : string) : list string :=
  match s with
  | EmptyString => [""]
  | String a s' =>
      if Ascii.eqb a c then "" :: split_on c s'
      else match split_on c s' with
           | w :: ws => String a w :: ws
           | [] => [String a ""]
           end
  end.

(** The space-separated tokens of a scramble string. *)
Definition tokens (s : string) : list string :=
  filter truthy (split_on " " s).

(** The face (or corner, or tip) letter a move token starts with. *)
Definition faceOf (token : string) : string :=
  match token with
  | EmptyString => ""
  | String c _ => String c ""
  end.

(** Template-literal rendering of a number. *)
Definition number_to_string (z : Z) : string :=
  NilZero.string_of_int (Z.to_int z).

(** Template-literal rendering of a possibly [undefined] string. *)
Definition render (v : option string) : string :=
  match v with
  | Some s => s
  | None => "undefined"
  end.

(* ================================================================= *)
(** ** Move tables shared by the cube generators *)

Definition opposites : list (string * string) :=
  [("R", "L"); ("L", "R"); ("U", "D"); ("D", "U"); ("F", "B"); ("B", "F")].

Definition sameAxis : list (string * list string) :=
  [("R", ["R"; "L"]); ("L", ["R"; "L"]);
   ("U", ["U"; "D"]); ("D", ["U"; "D"]);
   ("F", ["F"; "B"]); ("B", ["F"; "B"])].

(** The state the standard cube loops carry from move to move. *)
Record tracking := mkTracking {
  scramble : list string;
  lastMove : string;
  secondLastMove : string
}.

(** [scramble.push(token)] *)
Definition push (scr : list string) (token : string) : list string :=
  (scr ++ [token])%list.

(** [scramble.push(token); secondLastMove = lastMove; lastMove = face] *)
Definition push_move (st : tracking) (token face : string) : tracking :=
  mkTracking (push (scramble st) token) face (lastMove st).

(* ================================================================= *)
(** ** 3x3 (also 3x3 BLD and 3x3 OH) *)

Definition moves3x3 : list string := ["R"; "L"; "U"; "D"; "F"; "B"].

Definition adjacentPairs : list (list string) :=
  [["R"; "F"]; ["R"; "U"]; ["U"; "F"]; ["L"; "B"]; ["L"; "D"]; ["D"; "B"]].

(** [if (secondLastMove && lastMove)]: drop [secondLastMove] from the
    candidates when [find] meets it there. *)
Definition drop_second_last (st : tracking) (availableMoves : list string) : list string :=
  if truthy (secondLastMove st) && truthy (lastMove st) then
    match find (fun m => m =? secondLastMove st) availableMoves with
    | Some m =>
        if secondLastMove st =? m
        then filter (fun move => negb (move =? secondLastMove st)) availableMoves
        else availableMoves
    | None => availableMoves
    end
  else availableMoves.

(** [if (availableMoves.length === 0)]: fall back to every move but the last. *)
Definition relax (moves : list string) (st : tracking) (availableMoves : list string)
  : list string :=
  if (List.length availableMoves =? 0)%nat
  then filter (fun move => negb (move =? lastMove st)) moves
  else availableMoves.

(** The modifier of a biased move:
    [Math.random() < 0.4 ? '2' : (Math.random() < 0.5 ? '\'' : '')]. *)
Definition biased_modifier : Gen string :=
  r1 <- Math_random ;;
  if Qlt_bool r1 (4 # 10) then ret "2"
  else r2 <- Math_random ;; ret (if Qlt_bool r2 (1 # 2) then "'" else "").

(** The pattern bias shared by the 3x3 and 2x2 loops: from the pairs that
    hold [lastMove], pick one, take its other move, and with probability 0.6
    push it when it is still a candidate.  [None] is the fall-through. *)
Definition biased_move (pairs : list (list string)) (st : tracking)
    (availableMoves : list string) : Gen (option tracking) :=
  let preferredPairs := filter (fun pair => includes pair (lastMove st)) pairs in
  if (0 <? List.length preferredPairs)%nat then
    randomPair <- getRandomElement preferredPairs ;;
    match find (fun move => negb (move =? lastMove st)) randomPair with
    | Some preferredMove =>
        if truthy preferredMove && includes availableMoves preferredMove then
          r <- Math_random ;;
          if Qlt_bool r (6 # 10) then
            modifier <- biased_modifier ;;
            ret (Some (push_move st (preferredMove ++ modifier) preferredMove))
          else ret None
        else ret None
    | None => ret None
    end
  else ret None.

Definition body3x3 (i : nat) (st : tracking) : Gen tracking :=
  availableMoves <-
    (if truthy (lastMove st) then
       match lookup (lastMove st) sameAxis with
       | Some axis => ret (filter (fun move => negb (includes axis move)) moves3x3)
       | None => fail TypeError
       end
     else ret moves3x3) ;;
  let availableMoves := drop_second_last st availableMoves in
  let availableMoves := relax moves3x3 st availableMoves in
  biased <-
    (if (0 <? i)%nat && (i mod 5 =? 0)%nat && truthy (lastMove st)
     then biased_move adjacentPairs st availableMoves
     else ret None) ;;
  match biased with
  | Some st' => ret st'
  | None =>
      face <- getRandomElement availableMoves ;;
      r <- Math_random ;;
      let modifier :=
        if Qlt_bool r (33 # 100) then ""
        else if Qlt_bool r (66 # 100) then "'" else "2" in
      ret (push_move st (face ++ modifier) face)
  end.

Definition generate3x3Scramble : Gen string :=
  st <- for_loop 20 0 body3x3 (mkTracking [] "" "") ;;
  ret (join (scramble st)).

Definition generate3x3BLDScramble : Gen string := generate3x3Scramble.

Definition generate3x3OHScramble : Gen string := generate3x3Scramble.

(* ================================================================= *)
(** ** 2x2 *)

Definition moves2x2 : list string := ["R"; "U"; "F"].

Definition hardPatterns2x2 : list (list string) :=
  [["R"; "U"]; ["R"; "F"]; ["U"; "F"]].

Definition body2x2 (i : nat) (st : tracking) : Gen tracking :=
  let availableMoves :=
    if truthy (lastMove st) then
      filter (fun move => match lookup (lastMove st) sameAxis with
                          | Some axis => negb (includes axis move)
                          | None => true
                          end) moves2x2
    else moves2x2 in
  let availableMoves := drop_second_last st availableMoves in
  let availableMoves := relax moves2x2 st availableMoves in
  biased <-
    (if (0 <? i)%nat && (i mod 3 =? 0)%nat && truthy (lastMove st)
     then biased_move hardPatterns2x2 st availableMoves
     else ret None) ;;
  match biased with
  | Some st' => ret st'
  | None =>
      face <- getRandomElement availableMoves ;;
      r <- Math_random ;;
      let modifier :=
        if Qlt_bool r (3 # 10) then ""
        else if Qlt_bool r (65 # 100) then "'" else "2" in
      ret (push_move st (face ++ modifier) face)
  end.

Definition generate2x2Scramble : Gen string :=
  moveCount <- getRandomInt 9 11 ;;
  st <- for_loop (Z.to_nat moveCount) 0 body2x2 (mkTracking [] "" "") ;;
  ret (join (scramble st)).

(* ================================================================= *)
(** ** Pyraminx *)

Definition regularMoves : list string := ["R"; "L"; "U"; "B"].
Definition tipMoves : list string := ["r"; "l"; "u"; "b"].
Definition modifiers2 : list string := [""; "'"].

Definition antiRotation : list (string * string) :=
  [("R", "L"); ("L", "R"); ("U", "B"); ("B", "U")].

Definition hardPatternsPyraminx : list (list string) :=
  [["R"; "L"]; ["U"; "B"]; ["R"; "U"]; ["L"; "B"]].

(** The inner [for j] loop: every move of the pattern with a modifier. *)
Definition push_pattern (move : string) (scr : list string) : Gen (list string) :=
  modifier <- getRandomElement modifiers2 ;;
  ret (push scr (move ++ modifier)).

(** One pass of the base loop at index [i]; returns the state and the value
    of [i] the pass leaves behind (the pattern branch advances it). *)
Definition bodyPyraminx (moveCount i : nat) (st : tracking) : Gen (tracking * nat) :=
  patterned <-
    (if (i mod 3 =? 0)%nat && (i + 1 <? moveCount)%nat then
       pattern <- getRandomElement hardPatternsPyraminx ;;
       if negb (match nth_error pattern 0 with
                | Some first => first =? lastMove st
                | None => false
                end)
       then
         scr <- for_of pattern push_pattern (scramble st) ;;
         (* rows of the table have two moves, so both indices are in range *)
         ret (Some (mkTracking scr
                      (nth (List.length pattern - 1) pattern "")
                      (nth (List.length pattern - 2) pattern ""),
                    i + (List.length pattern - 1))%nat)
       else ret None
     else ret None) ;;
  match patterned with
  | Some r => ret r
  | None =>
      let availableMoves := filter (fun move => negb (move =? lastMove st)) regularMoves in
      let availableMoves :=
        if truthy (secondLastMove st) && truthy (lastMove st)
           && match lookup (lastMove st) antiRotation with
              | Some anti => secondLastMove st =? anti
              | None => false
              end
        then filter (fun move => negb (move =? secondLastMove st)) availableMoves
        else availableMoves in
      let availableMoves := relax regularMoves st availableMoves in
      move <- getRandomElement availableMoves ;;
      r <- Math_random ;;
      let modifier := if Qlt_bool r (6 # 10) then "'" else "" in
      ret (push_move st (move ++ modifier) move, i)
  end.

(** [for (let i = 0; i < moveCount; i++)] with [i] also advanced by the body.
    [i] grows by at least one per pass, so [moveCount] passes are enough;
    [gas] counts them down. *)
Fixpoint loopPyraminx (gas moveCount i : nat) (st : tracking) : Gen tracking :=
  if (i <? moveCount)%nat then
    match gas with
    | O => fail OutOfFuel
    | S gas' =>
        r <- bodyPyraminx moveCount i st ;;
        loopPyraminx gas' moveCount (S (snd r)) (fst r)
    end
  else ret st.

(** The tip loop; [usedTips] is the [Set] of tips already pushed. *)
Fixpoint loopTips (n : nat) (usedTips : list string) (scr : list string) : Gen (list string) :=
  match n with
  | O => ret scr
  | S n' =>
      let availableTips := filter (fun tip => negb (includes usedTips tip)) tipMoves in
      if (List.length availableTips =? 0)%nat then ret scr
      else
        tip <- getRandomElement availableTips ;;
        modifier <- getRandomElement modifiers2 ;;
        loopTips n' (tip :: usedTips) (push scr (tip ++ modifier))
  end.

(** The base moves, before the tips are appended. *)
Definition basePyraminx : Gen tracking :=
  moveCount <- getRandomInt 8 10 ;;
  loopPyraminx (Z.to_nat moveCount) (Z.to_nat moveCount) 0 (mkTracking [] "" "").

Definition generatePyraminxScramble : Gen string :=
  st <- basePyraminx ;;
  tipCount <- getRandomInt 0 2 ;;
  scr <- loopTips (Z.to_nat tipCount) [] (scramble st) ;;
  ret (join scr).

(* ================================================================= *)
(** ** Skewb *)

Definition corners : list string := ["R"; "U"; "L"; "B"].

Definition adjacentCorners : list (string * list string) :=
  [("R", ["U"; "L"; "B"]); ("U", ["R"; "L"; "B"]);
   ("L", ["R"; "U"; "B"]); ("B", ["R"; "U"; "L"])].

(** [lastMove] and [secondLastMove] hold [lastCorner] and [secondLastCorner]. *)
Definition bodySkewb (i : nat) (st : tracking) : Gen tracking :=
  let availableCorners := filter (fun corner => negb (corner =? lastMove st)) corners in
  adjacent <-
    (match (if truthy (lastMove st) then lookup (lastMove st) adjacentCorners else None) with
     | Some neighbours =>
         r <- Math_random ;;
         if Qlt_bool r (7 # 10) then
           let adjacentOptions :=
             filter (fun corner => negb (corner =? secondLastMove st)) neighbours in
           if (0 <? List.length adjacentOptions)%nat then
             corner <- getRandomElement adjacentOptions ;;
             r' <- Math_random ;;
             let modifier := if Qlt_bool r' (55 # 100) then "'" else "" in
             ret (Some (push_move st (corner ++ modifier) corner))
           else ret None
         else ret None
     | None => ret None
     end) ;;
  match adjacent with
  | Some st' => ret st'
  | None =>
      corner <- getRandomElement availableCorners ;;
      r <- Math_random ;;
      let modifier := if Qlt_bool r (55 # 100) then "'" else "" in
      ret (push_move st (corner ++ modifier) corner)
  end.

Definition generateSkewbScramble : Gen string :=
  st <- for_loop 9 0 bodySkewb (mkTracking [] "" "") ;;
  ret (join (scramble st)).

(* ================================================================= *)
(** ** Clock *)

Definition clock_positions : list string := ["UL"; "UR"; "DR"; "DL"; "ALL"].

(** One pass of [for (const pos of positions)]: draws an hour and pushes
    [pos], a plus sign for a non-negative hour, and the hour. *)
Definition clock_hour (pos : string) (scr : list string) : Gen (list string) :=
  hour <- getRandomInt 0 6 ;;
  ret (push scr (pos ++ (if (0 <=? hour)%Z then "+" else "") ++ number_to_string hour)).

Definition generateClockScramble : Gen string :=
  ur <- getRandomElement ["u"; "d"] ;;
  dr <- getRandomElement ["u"; "d"] ;;
  dl <- getRandomElement ["u"; "d"] ;;
  ul <- getRandomElement ["u"; "d"] ;;
  let pins := [("UR", ur); ("DR", dr); ("DL", dl); ("UL", ul)] in
  let downPinCount := List.length (filter (fun p => p =? "d") (map snd pins)) in
  pins <- (if (downPinCount <? 2)%nat then
             let positions := ["UR"; "DR"; "DL"; "UL"] in
             randomPosition <-
               getRandomElement
                 (filter (fun pos => match lookup pos pins with
                                     | Some v => v =? "u"
                                     | None => false
                                     end) positions) ;;
             ret (assign randomPosition "d" pins)
           else ret pins) ;;
  let scr := ["(" ++ render (lookup "UR" pins) ++ "," ++ render (lookup "DR" pins) ++ ","
                  ++ render (lookup "DL" pins) ++ "," ++ render (lookup "UL" pins) ++ ")"] in
  scr <- for_of clock_positions clock_hour scr ;;
  let scr := push scr "y2" in
  scr <- for_of clock_positions clock_hour scr ;;
  ret (join scr).

(* ================================================================= *)
(** ** Custom 3x3 and 2x2 *)

(** [do { face = getRandomElement(faces) } while (reject(face))], with at most
    [fuel] passes: the source loop has no bound of its own. *)
Fixpoint sampleFace (fuel : nat) (faces : list string) (reject : string -> bool) : Gen string :=
  match fuel with
  | O => fail OutOfFuel
  | S fuel' =>
      face <- getRandomElement faces ;;
      if reject face then sampleFace fuel' faces reject else ret face
  end.

(** The [while] condition of the custom 3x3 loop. *)
Definition rejected (lastFace lastAxis face : string) : bool :=
  (face =? lastFace)
  || match lookup lastFace opposites with
     | Some opposite => opposite =? face
     | None => false
     end
  || (truthy lastAxis
      && match lookup face sameAxis with
         | Some axis => includes axis lastAxis
         | None => false
         end).

(** The [switch (difficulty)]: the faces and the modifiers in use. *)
Definition facesFor (difficulty : string) : list string :=
  if difficulty =? "easy" then moves3x3
  else if difficulty =? "hard" then (moves3x3 ++ ["M"; "E"; "S"])%list
  else moves3x3.

Definition modifiersFor (difficulty : string) : list string :=
  if difficulty =? "easy" then [""; "'"]
  else if difficulty =? "hard" then [""; "'"; "2"; "w"; "w'"; "w2"]
  else [""; "'"; "2"].

Record customTracking := mkCustom {
  customScramble : list string;
  lastFace : string;
  lastAxis : string
}.

Definition bodyCustom3x3 (fuel : nat) (faces modifiers : list string)
    (i : nat) (st : customTracking) : Gen customTracking :=
  face <- sampleFace fuel faces (rejected (lastFace st) (lastAxis st)) ;;
  let lastAxis' := if includes moves3x3 face then face else lastAxis st in
  modifier <- getRandomElement modifiers ;;
  ret (mkCustom (push (customScramble st) (face ++ modifier)) face lastAxis').

(** A parameter with a default value: [None] is an argument left out. *)
Definition defaulting {A} (arg : option A) (value : A) : A :=
  match arg with
  | Some a => a
  | None => value
  end.

(** [generateCustom3x3Scramble(moves = 20, difficulty = 'medium')]; move
    counts are integers. *)
Definition generateCustom3x3Scramble (fuel : nat) (moves : option Z)
    (difficulty : option string) : Gen string :=
  let moves := defaulting moves 20%Z in
  let difficulty := defaulting difficulty "medium" in
  st <- for_loop (Z.to_nat moves) 0
          (bodyCustom3x3 fuel (facesFor difficulty) (modifiersFor difficulty))
          (mkCustom [] "" "") ;;
  ret (join (customScramble st)).

(** The move count the custom 2x2 generator settles on. *)
Definition adjustMoves (moves : Z) (difficulty : string) : Z :=
  if difficulty =? "easy" then Z.min moves 8
  else if difficulty =? "hard" then Z.max moves 11
  else Z.min (Z.max moves 9) 11.

Definition modifiers2x2For (difficulty : string) : list string :=
  if difficulty =? "easy" then [""; "'"]
  else if difficulty =? "hard" then [""; "'"; "2"]
  else [""; "'"; "2"].

(** The loop state is the scramble and [lastFace]. *)
Definition bodyCustom2x2 (fuel : nat) (modifiers : list string)
    (i : nat) (st : list string * string) : Gen (list string * string) :=
  face <- sampleFace fuel moves2x2 (fun face => face =? snd st) ;;
  modifier <- getRandomElement modifiers ;;
  ret (push (fst st) (face ++ modifier), face).

(** [generateCustom2x2Scramble(moves = 10, difficulty = 'medium')] *)
Definition generateCustom2x2Scramble (fuel : nat) (moves : option Z)
    (difficulty : option string) : Gen string :=
  let moves := defaulting moves 10%Z in
  let difficulty := defaulting difficulty "medium" in
  let moves := adjustMoves moves difficulty in
  st <- for_loop (Z.to_nat moves) 0
          (bodyCustom2x2 fuel (modifiers2x2For difficulty)) ([], "") ;;
  ret (join (fst st)).

(* ================================================================= *)
(** ** Dispatch *)

Module cubeTypes.
Definition SKEWB := "Skewb".
Definition THREE_BLD := "3x3 BLD".
Definition TWO := "2x2".
Definition THREE := "3x3".
Definition PYRAMINX := "Pyraminx".
Definition THREE_OH := "3x3 OH".
Definition CLOCK := "Clock".
End cubeTypes.

(** [moves || fallback]: an absent or zero count is falsy. *)
Definition orElse (moves : option Z) (fallback : Z) : Z :=
  match moves with
  | Some m => if (m =? 0)%Z then fallback else m
  | None => fallback
  end.

(** [generateCustomScramble(cubeType, moves?, difficulty = 'medium')] *)
Definition generateCustomScramble (fuel : nat) (cubeType : string) (moves : option Z)
    (difficulty : option string) : Gen string :=
  let difficulty := defaulting difficulty "medium" in
  if cubeType =? cubeTypes.TWO then
    generateCustom2x2Scramble fuel (Some (orElse moves 10)) (Some difficulty)
  else if cubeType =? cubeTypes.THREE then
    generateCustom3x3Scramble fuel (Some (orElse moves 20)) (Some difficulty)
  else if cubeType =? cubeTypes.THREE_BLD then
    generateCustom3x3Scramble fuel (Some (orElse moves 20)) (Some difficulty)
  else if cubeType =? cubeTypes.THREE_OH then
    generateCustom3x3Scramble fuel (Some (orElse moves 20)) (Some difficulty)
  else if cubeType =? cubeTypes.PYRAMINX then generatePyraminxScramble
  else if cubeType =? cubeTypes.SKEWB then generateSkewbScramble
  else if cubeType =? cubeTypes.CLOCK then generateClockScramble
  else generateCustom3x3Scramble fuel (Some (orElse moves 20)) (Some difficulty).

(** [generateScramble(cubeType)] *)
Definition generateScramble (cubeType : string) : Gen string :=
  if cubeType =? cubeTypes.THREE then generate3x3Scramble
  else if cubeType =? cubeTypes.TWO then generate2x2Scramble
  else if cubeType =? cubeTypes.PYRAMINX then generatePyraminxScramble
  else if cubeType =? cubeTypes.SKEWB then generateSkewbScramble
  else if cubeType =? cubeTypes.CLOCK then generateClockScramble
  else if cubeType =? cubeTypes.THREE_BLD then generate3x3BLDScramble
  else if cubeType =? cubeTypes.THREE_OH then generate3x3OHScramble
  else generate3x3Scramble.

(* ================================================================= *)
(** ** Reading a scramble back *)

(** The four pin values written in the first token, [(p1,p2,p3,p4)]. *)
Definition pin_values (token : string) : list string :=
  match token with
  | String "(" rest => split_on "," (substring 0 (String.length rest - 1) rest)
  | _ => []
  end.

Definition count_down (values : list string) : nat :=
  List.length (filter (fun v => v =? "d") values).

(** A stream whose every draw is [0]. *)
Definition zeros : stream := fun _ => 0%Q.

(** The draws [0/16, 1/16, ..., 15/16], over and over. *)
Definition sixteenths : stream :=
  fun k => (Z.of_nat (k mod 16) # 16)%Q.

Definition result {A} (o : outcome A) : option A :=
  match o with
  | Done a _ => Some a
  | Fail _ => None
  end.

(* ================================================================= *)
(** ** Vocabulary of the statements *)

(** [total m Q]: on every stream, from every position, [m] returns a value,
    and the value satisfies [Q]. *)
Definition total {A} (m : Gen A) (Q : A -> Prop) : Prop :=
  forall s p, exists a p', m s p = Done a p' /\ Q a.

(** [partial m Q]: on every stream [m] either returns a value satisfying [Q]
    or runs a retry loop out of fuel; it never stops in any other way. *)
Definition partial {A} (m : Gen A) (Q : A -> Prop) : Prop :=
  forall s p, (exists a p', m s p = Done a p' /\ Q a) \/ m s p = Fail OutOfFuel.

Fixpoint has_space (s : string) : bool :=
  match s with
  | EmptyString => false
  | String a s' => Ascii.eqb a " " || has_space s'
  end.

(** A word: a non-empty string without a space. *)
Definition word (s : string) : bool := truthy s && negb (has_space s).

(** [sameAxis[a].includes(b)], false when [a] has no entry. *)
Definition same_axis (a b : string) : bool :=
  match lookup a sameAxis with
  | Some axis => includes axis b
  | None => false
  end.

(** Entries [d] places apart are related by [R]. *)
Definition apart (d : nat) (R : string -> string -> Prop) (l : list string) : Prop :=
  forall i a b, nth_error l i = Some a -> nth_error l (i + d) = Some b -> R a b.

(** [ends l last second]: the last entry of [l] and the one before it, with
    the empty string where [l] is too short, as the trackers hold them. *)
Inductive ends : list string -> string -> string -> Prop :=
| ends_none : ends [] "" ""
| ends_one a : ends [a] a ""
| ends_more l b a : ends (l ++ [b; a]) a b.

(** What holds of the loop state of the 3x3 and 2x2 generators after [i]
    passes, over the alphabet [moves]. *)
Record cube_inv (moves : list string) (i : nat) (st : tracking) : Prop := {
  inv_length : List.length (scramble st) = i;
  inv_words : Forall (fun t => word t = true) (scramble st);
  inv_faces : Forall (fun f => In f moves) (map faceOf (scramble st));
  inv_ends : ends (map faceOf (scramble st)) (lastMove st) (secondLastMove st);
  inv_axis : apart 1 (fun a b => same_axis a b = false) (map faceOf (scramble st));
  inv_back : apart 2 (fun a b => a <> b) (map faceOf (scramble st))
}.

(** What holds of the Pyraminx base loop when [i] moves are pushed. *)
Record pyraminx_inv (i : nat) (st : tracking) : Prop := {
  pyr_length : List.length (scramble st) = i;
  pyr_words : Forall (fun t => word t = true) (scramble st);
  pyr_faces : Forall (fun f => In f regularMoves) (map faceOf (scramble st));
  pyr_ends : ends (map faceOf (scramble st)) (lastMove st) (secondLastMove st);
  pyr_repeat : apart 1 (fun a b => a <> b) (map faceOf (scramble st))
}.

(** An alphabet of one-letter moves. *)
Definition letters (moves : list string) : Prop :=
  forall f, In f moves -> exists c, f = String c "" /\ Ascii.eqb c " " = false.

Ltac each_member H :=
  simpl in H; repeat (destruct H as [<- | H]); try contradiction.

(** The candidates of a 3x3 pass once the axis of the last move is removed. *)
Definition axis_filtered3x3 (st : tracking) : list string :=
  if truthy (lastMove st)
  then filter (fun move => negb (same_axis (lastMove st) move)) moves3x3
  else moves3x3.

Definition reachable_ends (moves : list string) (st : tracking) : Prop :=
  (lastMove st = "" /\ secondLastMove st = "")
  \/ (In (lastMove st) moves /\ (secondLastMove st = "" \/ In (secondLastMove st) moves)).

Ltac each_ends H :=
  let Hl := fresh "Hl" in
  let Hs := fresh "Hs" in
  destruct H as [[Hl Hs] | [Hl Hs]];
  [ simpl in Hl, Hs; subst
  | each_member Hl; (destruct Hs as [Hs | Hs]; [simpl in Hs; subst | each_member Hs]) ].

(** The faces of [moves2x2] other than [a] and [b]. *)
Definition remaining2x2 (a b : string) : list string :=
  filter (fun move => negb (move =? a) && negb (move =? b)) moves2x2.

(** The index [getRandomElement] reads from an array of length [n] when the
    stream entry is [q]. *)
Definition pick (n : nat) (q : Q) : nat :=
  Z.to_nat (floor_scaled (unit_interval q) (Z.of_nat n)).

(** From every position on, every index below [n] is picked by some later
    draw.  (Independent uniform draws do so with probability 1.) *)
Definition recurrent (n : nat) (s : stream) : Prop :=
  forall p i, i < n -> exists j, pick n (s (p + j)) = i.

(** Raising the retry budget keeps a result. *)
Definition monotone {A} (m : nat -> Gen A) : Prop :=
  forall fuel fuel' s p a next,
    fuel <= fuel' -> m fuel s p = Done a next -> m fuel' s p = Done a next.

(** On the stream [s], from every position, some budget lets [m] return, and
    the value satisfies [Q]. *)
Definition eventually {A} (m : nat -> Gen A) (s : stream) (Q : A -> Prop) : Prop :=
  forall p, exists fuel a next, m fuel s p = Done a next /\ Q a.

(** A token made of a face of [faces] and a modifier of [modifiers]. *)
Definition over (faces modifiers : list string) (token : string) : Prop :=
  exists f m, token = f ++ m /\ In f faces /\ In m modifiers.

Definition spaceless (modifiers : list string) : Prop :=
  forall m, In m modifiers -> has_space m = false.

(** The scramble built so far: [i] words over the alphabet. *)
Definition custom_inv (faces modifiers : list string) (i : nat) (scr : list string) : Prop :=
  List.length scr = i
  /\ Forall (fun t => word t = true) scr
  /\ Forall (over faces modifiers) scr.

(** What a custom 3x3 pass does once the retry loop has settled on [face]. *)
Definition settle3x3 (difficulty : string) (st : customTracking) (face : string)
  : Gen customTracking :=
  bind (getRandomElement (modifiersFor difficulty))
       (fun modifier =>
          ret (mkCustom (push (customScramble st) (face ++ modifier)) face
                 (if includes moves3x3 face then face else lastAxis st))).

(** What a custom 2x2 pass does once the retry loop has settled on [face]. *)
Definition settle2x2 (difficulty : string) (st : list string * string) (face : string)
  : Gen (list string * string) :=
  bind (getRandomElement (modifiers2x2For difficulty))
       (fun modifier => ret (push (fst st) (face ++ modifier), face)).

(** The invariant of the custom 3x3 loop after [i] passes. *)
Definition custom3x3_inv (difficulty : string) (i : nat) (st : customTracking) : Prop :=
  custom_inv (facesFor difficulty) (modifiersFor difficulty) i (customScramble st).

(** The invariant of the custom 2x2 loop after [i] passes. *)
Definition custom2x2_inv (difficulty : string) (i : nat) (st : list string * string) : Prop :=
  custom_inv moves2x2 (modifiers2x2For difficulty) i (fst st).

(** Draws for a Pyraminx run: pattern R L, then U, then a refused pattern
    (U B after U) and the single moves B, R, L, then pattern R L again. *)
Definition cancelling : stream :=
  fun k => if (k =? 6)%nat then (1 # 4)%Q else if (k =? 7)%nat then (3 # 4)%Q else 0%Q.

(** The seven labels of [cubeTypes]. *)
Definition labels : list string :=
  [cubeTypes.TWO; cubeTypes.THREE; cubeTypes.THREE_BLD; cubeTypes.THREE_OH;
   cubeTypes.PYRAMINX; cubeTypes.SKEWB; cubeTypes.CLOCK].

(* ================================================================= *)
(** ** shuffleArray *)

From Stdlib Require Import Permutation.

(** [array[n] = x] on an index of the array. *)
Fixpoint set_at {T} (n : nat) (x : T) (l : list T) : list T :=
  match l, n with
  | [], _ => []
  | _ :: rest, O => x :: rest
  | y :: rest, S n' => y :: set_at n' x rest
  end.

(** [[a[i], a[j]] = [a[j], a[i]]]: both entries are read, then [a[i]] and
    [a[j]] are written.  The loop below calls it with [j <= i < a.length]
    only; it is left as the identity elsewhere. *)
Definition swap {T} (i j : nat) (l : list T) : list T :=
  match nth_error l i, nth_error l j with
  | Some a, Some b => set_at j a (set_at i b l)
  | _, _ => l
  end.

(** [for (let i = newArray.length - 1; i > 0; i--)], entered at [i]. *)
Fixpoint shuffle_from {T} (i : nat) (newArray : list T) : Gen (list T) :=
  match i with
  | O => ret newArray
  | S i' =>
      r <- Math_random ;;
      let j := Z.to_nat (floor_scaled r (Z.of_nat (i + 1))) in
      shuffle_from i' (swap i j newArray)
  end.

(** [shuffleArray(array)]: the copy [[...array]] is the list itself. *)
Definition shuffleArray {T} (array : list T) : Gen (list T) :=
  shuffle_from (List.length array - 1) array.

(** The transposition of [i] and [j]. *)
Definition transpose (i j n : nat) : nat :=
  if (n =? i)%nat then j else if (n =? j)%nat then i else n.

(* ================================================================= *)
(** ** More vocabulary *)

(** [const modifiers = ['', '\'', '2']] of the 3x3 and 2x2 generators. *)
Definition modifiers3 : list string := [""; "'"; "2"].

(** What holds of a loop that pushes moves over [moves] with modifiers of
    [modifiers] and never repeats the face just turned, after [i] pushes. *)
Record chain_inv (moves modifiers : list string) (i : nat) (st : tracking) : Prop := {
  chain_length : List.length (scramble st) = i;
  chain_words : Forall (fun t => word t = true) (scramble st);
  chain_over : Forall (over moves modifiers) (scramble st);
  chain_ends : ends (map faceOf (scramble st)) (lastMove st) (secondLastMove st);
  chain_repeat : apart 1 (fun a b => a <> b) (map faceOf (scramble st))
}.

(** The pin token of a Clock scramble, [(${pins.UR},${pins.DR},${pins.DL},${pins.UL})]. *)
Definition pin_token (ur dr dl ul : string) : string :=
  "(" ++ ur ++ "," ++ dr ++ "," ++ dl ++ "," ++ ul ++ ")".

(** An hour token of a Clock scramble with a non-negative hour: the position,
    a plus sign, the hour. *)
Definition hour_token (turn : string * Z) : string :=
  fst turn ++ "+" ++ number_to_string (snd turn).




(* ================================================================= *)
(** ** The weekly schedule and the ScrambleManager *)

(** [daySchedule] of the schema. *)
Definition daySchedule : list (string * string) :=
  [("MONDAY", cubeTypes.SKEWB); ("TUESDAY", cubeTypes.THREE_BLD);
   ("WEDNESDAY", cubeTypes.TWO); ("THURSDAY", cubeTypes.THREE);
   ("FRIDAY", cubeTypes.PYRAMINX); ("SATURDAY", cubeTypes.THREE_OH);
   ("SUNDAY", cubeTypes.CLOCK)].

(** What a property read gives where the manager expects a cube type: a
    string, [undefined], or a member inherited from [Object.prototype] (a
    function or an object, kept here by its key). *)
Inductive value :=
| Str (s : string)
| Undefined
| Inherited (key : string).

(** The members every object literal inherits from [Object.prototype]. *)
Definition Object_prototype : list string :=
  ["constructor"; "hasOwnProperty"; "isPrototypeOf"; "propertyIsEnumerable";
   "toLocaleString"; "toString"; "valueOf"; "__proto__";
   "__defineGetter__"; "__defineSetter__"; "__lookupGetter__"; "__lookupSetter__"].

(** [table[key]] on an object literal: its own properties, then the
    inherited ones. *)
Definition get (table : list (string * string)) (key : string) : value :=
  match lookup key table with
  | Some v => Str v
  | None => if includes Object_prototype key then Inherited key else Undefined
  end.

Definition truthy_value (v : value) : bool :=
  match v with
  | Str s => truthy s
  | Undefined => false
  | Inherited _ => true
  end.

(** [generateScramble(cubeType)] on such a value: no [case] label is strictly
    equal to a value that is not a string, so the [default] branch runs. *)
Definition generateScrambleOf (cubeType : value) : Gen string :=
  match cubeType with
  | Str t => generateScramble t
  | _ => generate3x3Scramble
  end.

(** [generateCustomScramble(cubeType, moves, difficulty)] on such a value. *)
Definition generateCustomScrambleOf (fuel : nat) (cubeType : value) (moves : option Z)
    (difficulty : option string) : Gen string :=
  match cubeType with
  | Str t => generateCustomScramble fuel t moves difficulty
  | _ => generateCustom3x3Scramble fuel (Some (orElse moves 20))
           (Some (defaulting difficulty "medium"))
  end.

(** Strings of code units below 128.  [toLowerCase] and [trim] are modelled
    on these; the statements about them assume it of the input. *)
Fixpoint ascii_only (s : string) : bool :=
  match s with
  | EmptyString => true
  | String c s' => (nat_of_ascii c <? 128)%nat && ascii_only s'
  end.

Definition upper (c : ascii) : bool :=
  (65 <=? nat_of_ascii c)%nat && (nat_of_ascii c <=? 90)%nat.

(** [A] to [Z] become [a] to [z]. *)
Definition lower (c : ascii) : ascii :=
  if upper c then ascii_of_nat (nat_of_ascii c + 32) else c.

(** [s.toLowerCase()] *)
Fixpoint toLowerCase (s : string) : string :=
  match s with
  | EmptyString => EmptyString
  | String c s' => String (lower c) (toLowerCase s')
  end.

(** White space and line terminators below 128: TAB, LF, VT, FF, CR, SPACE. *)
Definition blank (c : ascii) : bool :=
  ((9 <=? nat_of_ascii c)%nat && (nat_of_ascii c <=? 13)%nat)
  || (nat_of_ascii c =? 32)%nat.

Fixpoint trimStart (s : string) : string :=
  match s with
  | EmptyString => EmptyString
  | String c s' => if blank c then trimStart s' else s
  end.

Fixpoint trimEnd (s : string) : string :=
  match s with
  | EmptyString => EmptyString
  | String c s' =>
      match trimEnd s' with
      | EmptyString => if blank c then EmptyString else String c EmptyString
      | kept => String c kept
      end
  end.

(** [s.trim()] *)
Definition trim (s : string) : string := trimEnd (trimStart s).

(** [date.getDay()] indexes both arrays: 0 is Sunday.  An index past 6 stands
    for the [NaN] of an invalid date, which finds no entry either. *)
Definition dayKeys : list string :=
  ["SUNDAY"; "MONDAY"; "TUESDAY"; "WEDNESDAY"; "THURSDAY"; "FRIDAY"; "SATURDAY"].

Definition dayNames : list string :=
  ["Sunday"; "Monday"; "Tuesday"; "Wednesday"; "Thursday"; "Friday"; "Saturday"].

(** [getCubeTypeForDay(date)]: [daySchedule[days[date.getDay()]]]; a missing
    day is the key ["undefined"]. *)
Definition getCubeTypeForDay (getDay : nat) : value :=
  let day := nth_error dayKeys getDay in
  get daySchedule (render day).

(** The object [{ day, cubeType, scramble }]. *)
Record dailyScramble := mkDaily {
  daily_day : option string;
  daily_cubeType : value;
  daily_scramble : string
}.

(** [generateDailyScramble(date)] *)
Definition generateDailyScramble (getDay : nat) : Gen dailyScramble :=
  let cubeType := getCubeTypeForDay getDay in
  scramble <- generateScrambleOf cubeType ;;
  let dayName := nth_error dayNames getDay in
  ret (mkDaily dayName cubeType scramble).

(** [generateThreadTitle(date)] *)
Definition generateThreadTitle (getDay : nat) : value := getCubeTypeForDay getDay.

Definition knownTypes : list (string * string) :=
  [("skewb", cubeTypes.SKEWB); ("skb", cubeTypes.SKEWB);
   ("3x3 bld", cubeTypes.THREE_BLD); ("3bld", cubeTypes.THREE_BLD);
   ("2x2", cubeTypes.TWO); ("2", cubeTypes.TWO);
   ("3x3", cubeTypes.THREE); ("3", cubeTypes.THREE);
   ("pyraminx", cubeTypes.PYRAMINX); ("pyra", cubeTypes.PYRAMINX);
   ("3x3 oh", cubeTypes.THREE_OH); ("3oh", cubeTypes.THREE_OH);
   ("clock", cubeTypes.CLOCK); ("clk", cubeTypes.CLOCK)].

(** [cubeTypeStr.toLowerCase().trim()] *)
Definition normalize (cubeTypeStr : string) : string := trim (toLowerCase cubeTypeStr).

(** [stringToCubeType(cubeTypeStr)]:
    [knownTypes[normalizedInput] || cubeTypes.THREE]. *)
Definition stringToCubeType (cubeTypeStr : string) : value :=
  let normalizedInput := normalize cubeTypeStr in
  let found := get knownTypes normalizedInput in
  if truthy_value found then found else Str cubeTypes.THREE.

(** The object [{ cubeType, scramble }]. *)
Record typedScramble := mkTyped {
  typed_cubeType : value;
  typed_scramble : string
}.

(** [generateScrambleForType(cubeType)]; its argument is a string at run
    time, so [typeof cubeType === 'string'] holds. *)
Definition generateScrambleForType (cubeType : string) : Gen typedScramble :=
  let actualCubeType := stringToCubeType cubeType in
  scramble <- generateScrambleOf actualCubeType ;;
  ret (mkTyped actualCubeType scramble).

(** The object [{ cubeType, scramble, customParameters: { moves, difficulty } }];
    [moves] is a number or the string ['default']. *)
Record customResult := mkCustomResult {
  custom_cubeType : value;
  custom_scramble : string;
  custom_moves : Z + string;
  custom_difficulty : string
}.

(** [moves || 'default'] *)
Definition orDefault (moves : option Z) : Z + string :=
  match moves with
  | Some m => if (m =? 0)%Z then inr "default" else inl m
  | None => inr "default"
  end.

(** [generateCustomScrambleForType(cubeType, moves?, difficulty = 'medium')] *)
Definition generateCustomScrambleForType (fuel : nat) (cubeType : string)
    (moves : option Z) (difficulty : option string) : Gen customResult :=
  let difficulty := defaulting difficulty "medium" in
  let actualCubeType := stringToCubeType cubeType in
  scramble <- generateCustomScrambleOf fuel actualCubeType moves (Some difficulty) ;;
  ret (mkCustomResult actualCubeType scramble (orDefault moves) difficulty).

(** A string has a capital letter. *)
Fixpoint has_upper (s : string) : bool :=
  match s with
  | EmptyString => false
  | String c s' => upper c || has_upper s'
  end.

(** The least and the greatest number of tokens of a standard scramble of a
    cube type. *)
Definition token_range (cubeType : string) : nat * nat :=
  if cubeType =? cubeTypes.TWO then (9, 11)
  else if cubeType =? cubeTypes.PYRAMINX then (8, 12)
  else if cubeType =? cubeTypes.SKEWB then (9, 9)
  else if cubeType =? cubeTypes.CLOCK then (12, 12)
  else (20, 20).

Definition within (range : nat * nat) (n : nat) : Prop :=
  fst range <= n <= snd range.


(** Each pin of a list is [u] or [d]. *)
Ltac pins_listed :=
  repeat (apply Forall_cons; [simpl; auto |]); apply Forall_nil.

(** The candidates of a 2x2 pass once the axis of the last move is removed. *)
Definition axis_filtered2x2 (st : tracking) : list string :=
  if truthy (lastMove st) then
    filter (fun move => match lookup (lastMove st) sameAxis with
                        | Some axis => negb (includes axis move)
                        | None => true
                        end) moves2x2
  else moves2x2.

(** The candidates of a pass before the fallback [if (availableMoves.length
    === 0)] looks at them. *)
Definition candidates3x3 (st : tracking) : list string :=
  drop_second_last st (axis_filtered3x3 st).

Definition candidates2x2 (st : tracking) : list string :=
  drop_second_last st (axis_filtered2x2 st).

(* ================================================================= *)
(** ** Facts about the random primitives *)

Lemma unit_interval_range (q : Q) :
  (0 <= unit_interval q)%Q /\ (unit_interval q < 1)%Q.
Proof.
  unfold unit_interval. split.
  - apply (Qplus_le_l _ _ (inject_Z (Qfloor q))). ring_simplify. apply Qfloor_le.
  - apply (Qplus_lt_l _ _ (inject_Z (Qfloor q))). ring_simplify.
    pose proof (Qlt_floor q) as H. rewrite inject_Z_plus in H. exact H.
Qed.

Lemma floor_scaled_range (r : Q) (n : Z) :
  (0 <= r)%Q -> (r < 1)%Q -> (0 < n)%Z ->
  (0 <= floor_scaled r n < n)%Z.
Proof.
  intros H0 H1 Hn. unfold floor_scaled.
  assert (Hpos : (0 < inject_Z n)%Q).
  { change (inject_Z 0 < inject_Z n)%Q. rewrite <- Zlt_Qlt. exact Hn. }
  split.
  - change 0%Z with (Qfloor 0). apply Qfloor_resp_le.
    apply Qmult_le_0_compat; [exact H0 | apply Qlt_le_weak; exact Hpos].
  - rewrite Zlt_Qlt. eapply Qle_lt_trans; [apply Qfloor_le |].
    setoid_replace (inject_Z n) with (1 * inject_Z n)%Q at 2 by ring.
    apply Qmult_lt_compat_r; assumption.
Qed.

Lemma pick_in_range {T} (array : list T) (q : Q) :
  array <> [] ->
  (Z.to_nat (floor_scaled (unit_interval q) (Z.of_nat (List.length array)))
   < List.length array)%nat.
Proof.
  intros Hne.
  destruct (unit_interval_range q) as [H0 H1].
  assert (Hlen : (0 < Z.of_nat (List.length array))%Z).
  { destruct array; [congruence | simpl; lia]. }
  pose proof (floor_scaled_range _ _ H0 H1 Hlen). lia.
Qed.

Lemma getRandomElement_Done {T} (array : list T) (s : stream) (p : nat) :
  array <> [] ->
  exists x, getRandomElement array s p = Done x (S p) /\ In x array.
Proof.
  intros Hne. unfold getRandomElement, bind, Math_random.
  pose proof (pick_in_range array (s p) Hne) as Hlt.
  apply nth_error_Some in Hlt.
  destruct (nth_error array _) as [x |] eqn:E; [| congruence].
  exists x. split; [reflexivity | eapply nth_error_In; exact E].
Qed.

Lemma getRandomInt_Done (min max : Z) (s : stream) (p : nat) :
  (min <= max)%Z ->
  exists v, getRandomInt min max s p = Done v (S p) /\ (min <= v <= max)%Z.
Proof.
  intros Hle. unfold getRandomInt, bind, Math_random, ret.
  destruct (unit_interval_range (s p)) as [H0 H1].
  assert (Hw : (0 < max - min + 1)%Z) by lia.
  pose proof (floor_scaled_range _ _ H0 H1 Hw).
  eexists. split; [reflexivity | lia].
Qed.

(* ================================================================= *)
(** ** A program logic for generators *)

Lemma total_partial {A} (m : Gen A) (Q : A -> Prop) : total m Q -> partial m Q.
Proof. intros H s p. left. apply H. Qed.

Lemma total_ret {A} (a : A) (Q : A -> Prop) : Q a -> total (ret a) Q.
Proof. intros H s p. exists a, p. split; [reflexivity | exact H]. Qed.

Lemma total_bind {A B} (m : Gen A) (k : A -> Gen B) (P : A -> Prop) (Q : B -> Prop) :
  total m P -> (forall a, P a -> total (k a) Q) -> total (bind m k) Q.
Proof.
  intros Hm Hk s p. unfold bind.
  destruct (Hm s p) as (a & p' & E & Ha). rewrite E. apply (Hk a Ha).
Qed.

Lemma total_weaken {A} (m : Gen A) (P Q : A -> Prop) :
  total m P -> (forall a, P a -> Q a) -> total m Q.
Proof.
  intros Hm HPQ s p. destruct (Hm s p) as (a & p' & E & Ha).
  exists a, p'. split; [exact E | apply HPQ; exact Ha].
Qed.

Lemma total_random : total Math_random (fun _ => True).
Proof. intros s p. eexists _, _. split; [reflexivity | exact I]. Qed.

Lemma total_getRandomElement {T} (array : list T) :
  array <> [] -> total (getRandomElement array) (fun x => In x array).
Proof.
  intros Hne s p. destruct (getRandomElement_Done array s p Hne) as (x & E & Hx).
  exists x, (S p). split; assumption.
Qed.

Lemma total_getRandomInt (min max : Z) :
  (min <= max)%Z -> total (getRandomInt min max) (fun v => (min <= v <= max)%Z).
Proof.
  intros Hle s p. destruct (getRandomInt_Done min max s p Hle) as (v & E & Hv).
  exists v, (S p). split; assumption.
Qed.

Lemma total_for_loop {St} (Inv : nat -> St -> Prop) (body : nat -> St -> Gen St) :
  (forall i st, Inv i st -> total (body i st) (Inv (S i))) ->
  forall n i st, Inv i st -> total (for_loop n i body st) (Inv (i + n)).
Proof.
  intros Hbody n. induction n as [| n IH]; intros i st Hinv; simpl.
  - apply total_ret. rewrite Nat.add_0_r. exact Hinv.
  - eapply total_bind; [apply Hbody; exact Hinv |].
    intros st' Hst'. rewrite <- Nat.add_succ_comm. apply IH. exact Hst'.
Qed.

Lemma total_for_of {X St} (Inv : list X -> St -> Prop) (body : X -> St -> Gen St) :
  (forall done x st, Inv done st -> total (body x st) (Inv (done ++ [x])%list)) ->
  forall xs done st, Inv done st -> total (for_of xs body st) (Inv (done ++ xs)%list).
Proof.
  intros Hbody xs. induction xs as [| x xs IH]; intros done st Hinv; simpl.
  - apply total_ret. rewrite app_nil_r. exact Hinv.
  - eapply total_bind; [apply Hbody; exact Hinv |].
    intros st' Hst'.
    replace (done ++ x :: xs)%list with ((done ++ [x]) ++ xs)%list
      by (rewrite <- app_assoc; reflexivity).
    apply IH. exact Hst'.
Qed.

Lemma partial_ret {A} (a : A) (Q : A -> Prop) : Q a -> partial (ret a) Q.
Proof. intros H. apply total_partial, total_ret, H. Qed.

Lemma partial_bind {A B} (m : Gen A) (k : A -> Gen B) (P : A -> Prop) (Q : B -> Prop) :
  partial m P -> (forall a, P a -> partial (k a) Q) -> partial (bind m k) Q.
Proof.
  intros Hm Hk s p. unfold bind.
  destruct (Hm s p) as [(a & p' & E & Ha) | E]; rewrite E.
  - apply (Hk a Ha).
  - right. reflexivity.
Qed.

Lemma partial_for_loop {St} (Inv : nat -> St -> Prop) (body : nat -> St -> Gen St) :
  (forall i st, Inv i st -> partial (body i st) (Inv (S i))) ->
  forall n i st, Inv i st -> partial (for_loop n i body st) (Inv (i + n)).
Proof.
  intros Hbody n. induction n as [| n IH]; intros i st Hinv; simpl.
  - apply partial_ret. rewrite Nat.add_0_r. exact Hinv.
  - eapply partial_bind; [apply Hbody; exact Hinv |].
    intros st' Hst'. rewrite <- Nat.add_succ_comm. apply IH. exact Hst'.
Qed.

Lemma partial_sampleFace (fuel : nat) (faces : list string) (reject : string -> bool) :
  faces <> [] ->
  partial (sampleFace fuel faces reject) (fun face => In face faces /\ reject face = false).
Proof.
  intros Hne. induction fuel as [| fuel IH]; simpl.
  - intros s p. right. reflexivity.
  - eapply partial_bind; [apply total_partial, total_getRandomElement, Hne |].
    intros face Hin. simpl. destruct (reject face) eqn:E.
    + exact IH.
    + apply partial_ret. split; assumption.
Qed.

(* ================================================================= *)
(** ** Tokens of a joined scramble *)

Lemma has_space_append (a b : string) :
  has_space (a ++ b) = has_space a || has_space b.
Proof.
  induction a as [| c a IH]; simpl; [reflexivity |].
  rewrite IH. apply orb_assoc.
Qed.

Lemma word_append (a b : string) :
  word a = true -> has_space b = false -> word (a ++ b) = true.
Proof.
  unfold word. intros Ha Hb. apply andb_true_iff in Ha. destruct Ha as [Ht Hs].
  rewrite has_space_append, Hb, orb_false_r, Hs, andb_true_r.
  destruct a; [discriminate | reflexivity].
Qed.

Lemma split_on_spaceless (t : string) :
  has_space t = false -> split_on " " t = [t].
Proof.
  induction t as [| a t IH]; simpl; intros H; [reflexivity |].
  apply orb_false_iff in H. destruct H as [Ha Ht].
  rewrite Ha, (IH Ht). reflexivity.
Qed.

Lemma split_on_separator (t r : string) :
  has_space t = false ->
  split_on " " (t ++ String " " r) = t :: split_on " " r.
Proof.
  induction t as [| a t IH]; simpl; intros H; [reflexivity |].
  apply orb_false_iff in H. destruct H as [Ha Ht].
  rewrite Ha, (IH Ht). reflexivity.
Qed.

Lemma tokens_join (scr : list string) :
  Forall (fun t => word t = true) scr -> tokens (join scr) = scr.
Proof.
  unfold tokens, join. induction scr as [| x scr IH]; intros H; [reflexivity |].
  inversion H as [| ? ? Hx Hrest]; subst.
  unfold word in Hx. apply andb_true_iff in Hx. destruct Hx as [Ht Hs].
  apply negb_true_iff in Hs.
  destruct scr as [| y scr].
  - simpl. rewrite (split_on_spaceless x Hs). simpl. rewrite Ht. reflexivity.
  - change (concat " " (x :: y :: scr)) with (x ++ String " " (concat " " (y :: scr))).
    rewrite (split_on_separator _ _ Hs). simpl filter. rewrite Ht.
    f_equal. apply IH. exact Hrest.
Qed.

Lemma Forall_push (P : string -> Prop) (scr : list string) (token : string) :
  Forall P scr -> P token -> Forall P (push scr token).
Proof.
  intros Hs Ht. unfold push. apply Forall_app.
  split; [exact Hs | constructor; [exact Ht | constructor]].
Qed.

Lemma length_push (scr : list string) (token : string) :
  List.length (push scr token) = S (List.length scr).
Proof. unfold push. rewrite length_app. simpl. lia. Qed.

(* ================================================================= *)
(** ** Clock: shape of the scramble *)

Lemma clock_hour_word (pos : string) (hour : Z) :
  In pos clock_positions -> (0 <= hour <= 6)%Z ->
  word (pos ++ (if (0 <=? hour)%Z then "+" else "") ++ number_to_string hour) = true.
Proof.
  intros Hpos Hh.
  assert (Hcases : hour = 0%Z \/ hour = 1%Z \/ hour = 2%Z \/ hour = 3%Z
                   \/ hour = 4%Z \/ hour = 5%Z \/ hour = 6%Z) by lia.
  unfold clock_positions in Hpos. simpl in Hpos.
  repeat (destruct Hpos as [<- | Hpos]); try contradiction;
    repeat (destruct Hcases as [-> | Hcases]); subst; reflexivity.
Qed.

(** Each of the two [for (const pos of positions)] loops pushes five words. *)
Lemma total_clock_hours (scr : list string) :
  total (for_of clock_positions clock_hour scr)
        (fun scr' => exists hs, scr' = (scr ++ hs)%list /\ List.length hs = 5
                                /\ Forall (fun t => word t = true) hs).
Proof.
  assert (Hgen : forall xs done st,
             (forall x, In x xs -> In x clock_positions) ->
             (exists hs, st = (scr ++ hs)%list /\ List.length hs = List.length done
                         /\ Forall (fun t => word t = true) hs) ->
             total (for_of xs clock_hour st)
                   (fun scr' => exists hs, scr' = (scr ++ hs)%list
                                           /\ List.length hs = List.length (done ++ xs)%list
                                           /\ Forall (fun t => word t = true) hs)).
  { induction xs as [| x xs IH]; intros done st Hsub Hinv; simpl.
    - apply total_ret. rewrite app_nil_r. exact Hinv.
    - unfold clock_hour at 1.
      eapply total_bind.
      { eapply total_bind; [apply (total_getRandomInt 0 6); lia |].
        intros hour Hh. apply total_ret.
        instantiate (1 := fun st' => exists hs, st' = (scr ++ hs)%list
                              /\ List.length hs = List.length (done ++ [x])%list
                              /\ Forall (fun t => word t = true) hs).
        destruct Hinv as (hs & -> & Hlen & Hw).
        exists (push hs (x ++ (if (0 <=? hour)%Z then "+" else "") ++ number_to_string hour)).
        split; [unfold push; rewrite app_assoc; reflexivity |].
        split; [rewrite length_push, length_app; simpl; lia |].
        apply Forall_push; [exact Hw |].
        apply clock_hour_word; [apply Hsub; left; reflexivity | exact Hh]. }
      intros st' Hst'.
      replace (done ++ x :: xs)%list with ((done ++ [x]) ++ xs)%list
        by (rewrite <- app_assoc; reflexivity).
      apply IH; [intros y Hy; apply Hsub; right; exact Hy | exact Hst']. }
  apply (Hgen clock_positions [] scr); [auto |].
  exists []. rewrite app_nil_r. repeat split; constructor.
Qed.

(** The Clock generator always returns, and what it returns is the join of a
    pin word, five hour words, [y2] and five more hour words. *)
Lemma total_clock :
  total generateClockScramble
        (fun out => exists pin hs1 hs2,
             tokens out = (pin :: hs1 ++ "y2" :: hs2)%list
             /\ List.length hs1 = 5 /\ List.length hs2 = 5).
Proof.
  unfold generateClockScramble.
  eapply total_bind; [apply total_getRandomElement; discriminate | intros ur Hur].
  eapply total_bind; [apply total_getRandomElement; discriminate | intros dr Hdr].
  eapply total_bind; [apply total_getRandomElement; discriminate | intros dl Hdl].
  eapply total_bind; [apply total_getRandomElement; discriminate | intros ul Hul].
  eapply total_bind with
    (P := fun pins =>
            word ("(" ++ render (lookup "UR" pins) ++ "," ++ render (lookup "DR" pins) ++ ","
                      ++ render (lookup "DL" pins) ++ "," ++ render (lookup "UL" pins) ++ ")")
            = true).
  { simpl in Hur, Hdr, Hdl, Hul.
    destruct Hur as [<- | [<- | []]]; destruct Hdr as [<- | [<- | []]];
      destruct Hdl as [<- | [<- | []]]; destruct Hul as [<- | [<- | []]];
      cbn [map snd filter String.eqb Ascii.eqb Bool.eqb List.length Nat.ltb Nat.leb lookup];
      try (apply total_ret; reflexivity);
      (eapply total_bind; [apply total_getRandomElement; discriminate |];
       intros pos Hpos; simpl in Hpos;
       repeat (destruct Hpos as [<- | Hpos]); try contradiction;
       apply total_ret; reflexivity). }
  intros pins Hpin.
  eapply total_bind; [apply total_clock_hours |].
  intros scr1 (hs1 & -> & Hlen1 & Hw1).
  eapply total_bind; [apply total_clock_hours |].
  intros scr2 (hs2 & -> & Hlen2 & Hw2).
  apply total_ret.
  eexists _, hs1, hs2. split; [| split; assumption].
  rewrite tokens_join.
  - unfold push. simpl. rewrite <- app_assoc. reflexivity.
  - unfold push. repeat (apply Forall_app; split); try assumption;
      repeat constructor; assumption.
Qed.

Example clock_zeros :
  result (generateClockScramble zeros 0)
  = Some "(d,u,u,u) UL+0 UR+0 DR+0 DL+0 ALL+0 y2 UL+0 UR+0 DR+0 DL+0 ALL+0".
Proof. vm_compute. reflexivity. Qed.

(** C2, as the specification states it, fails: counting from 1 the sixth
    token is the hour of [ALL]; [y2] comes seventh.  With every draw [0]: *)
Lemma clock_sixth_token_is_an_hour :
  exists out next,
    generateScramble "Clock" zeros 0 = Done out next
    /\ List.length (tokens out) = 12
    /\ nth_error (tokens out) 5 = Some "ALL+0"
    /\ nth_error (tokens out) 5 <> Some "y2".
Proof.
  eexists _, _. split; [vm_compute; reflexivity |].
  split; [vm_compute; reflexivity |].
  split; [vm_compute; reflexivity | vm_compute; discriminate].
Qed.

(** C2, amended.  On every random stream [generateScramble("Clock")] returns
    a string of exactly twelve space-separated tokens, and the seventh of
    them (index 6 from 0) is the literal [y2]: one pin token and five hours
    come before it, five hours after. *)
Theorem clock_twelve_tokens_y2_seventh (s : stream) (p : nat) :
  exists out next,
    generateScramble "Clock" s p = Done out next
    /\ List.length (tokens out) = 12
    /\ nth_error (tokens out) 6 = Some "y2".
Proof.
  change (generateScramble "Clock") with generateClockScramble.
  destruct (total_clock s p) as (out & next & E & pin & hs1 & hs2 & Htok & H1 & H2).
  exists out, next. split; [exact E |]. rewrite Htok.
  do 6 (destruct hs1 as [| ? hs1]; try discriminate).
  split; [simpl; rewrite H2; reflexivity | reflexivity].
Qed.

(** C1 (the code misses it).  When the four pin draws all come out [u], the
    repair flips a single pin, and the pin token of the scramble carries one
    [d] only: here [(d,u,u,u)]. *)
Theorem clock_all_up_leaves_one_down :
  exists out next,
    generateScramble "Clock" zeros 0 = Done out next
    /\ hd "" (tokens out) = "(d,u,u,u)"
    /\ count_down (pin_values (hd "" (tokens out))) = 1.
Proof.
  eexists _, _. split; [vm_compute; reflexivity |].
  split; vm_compute; reflexivity.
Qed.

(* ================================================================= *)
(** ** Invariants of the standard cube loops *)

Lemma ends_snoc (l : list string) (a b x : string) :
  ends l a b -> ends (l ++ [x]) x a.
Proof.
  intros H. inversion H; subst; simpl.
  - constructor.
  - apply (ends_more [] a x).
  - rewrite <- app_assoc. simpl.
    replace (l0 ++ [b; a; x])%list with ((l0 ++ [b]) ++ [a; x])%list
      by (rewrite <- app_assoc; reflexivity).
    apply ends_more.
Qed.

Lemma ends_last (l : list string) (a b x : string) :
  ends l a b -> nth_error l (List.length l - 1) = Some x -> x = a.
Proof.
  intros H. inversion H; subst; simpl.
  - discriminate.
  - congruence.
  - rewrite length_app. simpl.
    rewrite nth_error_app2 by lia.
    replace (List.length l0 + 2 - 1 - List.length l0) with 1 by lia.
    simpl. congruence.
Qed.

Lemma ends_second (l : list string) (a b x : string) :
  ends l a b -> 2 <= List.length l -> nth_error l (List.length l - 2) = Some x -> x = b.
Proof.
  intros H. inversion H; subst; simpl.
  - lia.
  - lia.
  - rewrite length_app. simpl. intros _.
    rewrite nth_error_app2 by lia.
    replace (List.length l0 + 2 - 2 - List.length l0) with 0 by lia.
    simpl. congruence.
Qed.

Lemma ends_cases (moves l : list string) (a b : string) :
  Forall (fun f => In f moves) l -> ends l a b ->
  (a = "" /\ b = "" /\ l = []) \/ (In a moves /\ (b = "" \/ In b moves)).
Proof.
  intros Hall H. inversion H; subst.
  - left. auto.
  - right. inversion Hall; subst. auto.
  - right. apply Forall_app in Hall. destruct Hall as [_ Hall].
    inversion Hall as [| ? ? Hb Hrest]; subst. inversion Hrest; subst. auto.
Qed.

Lemma apart_snoc (d : nat) (R : string -> string -> Prop) (l : list string) (x : string) :
  0 < d -> apart d R l ->
  (forall a, d <= List.length l -> nth_error l (List.length l - d) = Some a -> R a x) ->
  apart d R (l ++ [x]).
Proof.
  intros Hd Hl Hx i a b Ha Hb.
  assert (Hi : i + d < List.length (l ++ [x])) by (apply nth_error_Some; congruence).
  rewrite length_app in Hi. simpl in Hi.
  rewrite nth_error_app1 in Ha by lia.
  destruct (Nat.eq_dec (i + d) (List.length l)) as [E | E].
  - rewrite nth_error_app2 in Hb by lia.
    replace (i + d - List.length l) with 0 in Hb by lia. simpl in Hb.
    injection Hb as <-. apply Hx; [lia |].
    replace (List.length l - d) with i by lia. exact Ha.
  - rewrite nth_error_app1 in Hb by lia. exact (Hl i a b Ha Hb).
Qed.

Lemma cube_inv_start (moves : list string) : cube_inv moves 0 (mkTracking [] "" "").
Proof.
  constructor; simpl; try constructor.
  - intros i a b H. destruct i; discriminate.
  - intros i a b H. destruct i; discriminate.
Qed.

(** Pushing a move keeps the invariant when the move is off the axis of the
    last one and is not the one before it. *)
Lemma cube_inv_push (moves : list string) (i : nat) (st : tracking) (face modifier : string) :
  cube_inv moves i st ->
  In face moves ->
  word (face ++ modifier) = true ->
  faceOf (face ++ modifier) = face ->
  (lastMove st <> "" -> same_axis (lastMove st) face = false) ->
  (secondLastMove st <> "" -> secondLastMove st <> face) ->
  (forall f, In f moves -> f <> "") ->
  cube_inv moves (S i) (push_move st (face ++ modifier) face).
Proof.
  intros [Hlen Hw Hf He Hax Hbk] Hin Hword Hface Hlast Hsecond Hne.
  assert (Hmap : map faceOf (push (scramble st) (face ++ modifier))
                 = (map faceOf (scramble st) ++ [face])%list).
  { unfold push. rewrite map_app. simpl. rewrite Hface. reflexivity. }
  constructor; simpl.
  - rewrite length_push. lia.
  - apply Forall_push; assumption.
  - rewrite Hmap. apply Forall_app. split; [exact Hf | repeat constructor; exact Hin].
  - rewrite Hmap. eapply ends_snoc. exact He.
  - rewrite Hmap. apply apart_snoc; [lia | exact Hax |].
    intros a Hge Ha. rewrite (ends_last _ _ _ _ He Ha).
    apply Hlast. apply Hne.
    rewrite <- (ends_last _ _ _ _ He Ha).
    apply nth_error_In in Ha. rewrite Forall_forall in Hf. apply Hf. exact Ha.
  - rewrite Hmap. apply apart_snoc; [lia | exact Hbk |].
    intros a Hge Ha. rewrite (ends_second _ _ _ _ He Hge Ha).
    apply Hsecond. apply Hne.
    rewrite <- (ends_second _ _ _ _ He Hge Ha).
    apply nth_error_In in Ha. rewrite Forall_forall in Hf. apply Hf. exact Ha.
Qed.

Lemma letters_nonempty (moves : list string) (f : string) :
  letters moves -> In f moves -> f <> "".
Proof. intros H Hin. destruct (H f Hin) as (c & -> & _). discriminate. Qed.

Lemma letters_token (moves : list string) (f m : string) :
  letters moves -> In f moves -> has_space m = false ->
  word (f ++ m) = true /\ faceOf (f ++ m) = f.
Proof.
  intros H Hin Hm. destruct (H f Hin) as (c & -> & Hc). split; [| reflexivity].
  apply word_append; [| exact Hm]. unfold word. simpl. rewrite Hc. reflexivity.
Qed.

Lemma letters_moves3x3 : letters moves3x3.
Proof. intros f H. each_member H; eexists; split; reflexivity. Qed.

Lemma letters_moves2x2 : letters moves2x2.
Proof. intros f H. each_member H; eexists; split; reflexivity. Qed.

Lemma total_biased_modifier :
  total biased_modifier (fun m => In m ["2"; "'"; ""]).
Proof.
  unfold biased_modifier.
  eapply total_bind; [apply total_random | intros r1 _].
  destruct (Qlt_bool r1 (4 # 10)).
  - apply total_ret. simpl. auto.
  - eapply total_bind; [apply total_random | intros r2 _].
    apply total_ret. destruct (Qlt_bool r2 (1 # 2)); simpl; auto.
Qed.

Lemma includes_In (array : list string) (x : string) :
  includes array x = true -> In x array.
Proof.
  unfold includes. intros H. apply existsb_exists in H.
  destruct H as (y & Hy & E). apply String.eqb_eq in E. subst. exact Hy.
Qed.

(** A biased move, when one is made, is a candidate with a modifier of the
    biased kind. *)
Lemma total_biased_move (pairs : list (list string)) (st : tracking)
    (availableMoves : list string) :
  total (biased_move pairs st availableMoves)
        (fun r => match r with
                  | Some st' => exists f m, In f availableMoves /\ In m ["2"; "'"; ""]
                                            /\ st' = push_move st (f ++ m) f
                  | None => True
                  end).
Proof.
  unfold biased_move.
  destruct (filter _ pairs) as [| pair rest] eqn:E; simpl Nat.ltb; cbv iota.
  - apply total_ret. exact I.
  - eapply total_bind; [apply total_getRandomElement; discriminate | intros randomPair _].
    destruct (find _ randomPair) as [preferredMove |]; [| apply total_ret; exact I].
    destruct (truthy preferredMove && includes availableMoves preferredMove) eqn:C;
      [| apply total_ret; exact I].
    apply andb_true_iff in C. destruct C as [_ C]. apply includes_In in C.
    eapply total_bind; [apply total_random | intros r _].
    destruct (Qlt_bool r (6 # 10)); [| apply total_ret; exact I].
    eapply total_bind; [apply total_biased_modifier | intros m Hm].
    apply total_ret. exists preferredMove, m. auto.
Qed.

Lemma cube_inv_reachable (moves : list string) (i : nat) (st : tracking) :
  cube_inv moves i st -> reachable_ends moves st.
Proof.
  intros H. destruct (ends_cases _ _ _ _ (inv_faces _ _ _ H) (inv_ends _ _ _ H))
    as [(Ha & Hb & _) | Hab]; [left | right]; auto.
Qed.

(** The candidates of a 3x3 pass: never none, all off the axis of the last
    move, none equal to the move before it. *)
Lemma candidates3x3_ok (scr : list string) (lm sl : string) :
  let st := mkTracking scr lm sl in
  let availableMoves := relax moves3x3 st (drop_second_last st (axis_filtered3x3 st)) in
  reachable_ends moves3x3 st ->
  availableMoves <> []
  /\ forall f, In f availableMoves ->
       In f moves3x3 /\ (lm <> "" -> same_axis lm f = false) /\ (sl <> "" -> sl <> f).
Proof.
  intros st availableMoves H. subst st availableMoves. unfold reachable_ends in H.
  each_ends H;
    (split; [vm_compute; discriminate |]);
    intros f Hf; vm_compute in Hf;
    repeat (destruct Hf as [<- | Hf]); try contradiction;
    (split; [simpl; auto 10 |]);
    (split; [intros _; reflexivity | intros ?; try congruence; discriminate]).
Qed.

Lemma total_axis_filter3x3 (st : tracking) :
  reachable_ends moves3x3 st ->
  total (if truthy (lastMove st) then
           match lookup (lastMove st) sameAxis with
           | Some axis => ret (filter (fun move => negb (includes axis move)) moves3x3)
           | None => fail TypeError
           end
         else ret moves3x3)
        (fun availableMoves => availableMoves = axis_filtered3x3 st).
Proof.
  intros H. destruct st as [scr lm sl]. unfold reachable_ends in H.
  each_ends H; apply total_ret; reflexivity.
Qed.

Lemma modifier_spaceless3 (m : string) : In m ["2"; "'"; ""] -> has_space m = false.
Proof. intros H. each_member H; reflexivity. Qed.

(** One pass of the 3x3 loop keeps the invariant. *)
Lemma body3x3_inv (i : nat) (st : tracking) :
  cube_inv moves3x3 i st -> total (body3x3 i st) (cube_inv moves3x3 (S i)).
Proof.
  intros Hinv. pose proof (cube_inv_reachable _ _ _ Hinv) as Hreach.
  unfold body3x3.
  eapply total_bind; [apply total_axis_filter3x3; exact Hreach | intros av ->].
  destruct st as [scr lm sl].
  destruct (candidates3x3_ok scr lm sl Hreach) as [Hne Hok].
  set (availableMoves := relax moves3x3 _ _) in *.
  assert (Hpush : forall f m, In f availableMoves -> has_space m = false ->
            cube_inv moves3x3 (S i) (push_move (mkTracking scr lm sl) (f ++ m) f)).
  { intros f m Hf Hm. destruct (Hok f Hf) as (Hin & Hax & Hbk).
    destruct (letters_token _ f m letters_moves3x3 Hin Hm) as [Hw Hface].
    apply cube_inv_push; try assumption.
    intros g Hg. eapply letters_nonempty; [apply letters_moves3x3 | exact Hg]. }
  eapply total_bind.
  { instantiate (1 := fun r => match r with
                               | Some st' => cube_inv moves3x3 (S i) st'
                               | None => True
                               end).
    destruct ((0 <? i)%nat && (i mod 5 =? 0)%nat && truthy _).
    - eapply total_weaken; [apply total_biased_move |].
      intros [st' |] H; [| exact I]. destruct H as (f & m & Hf & Hm & ->).
      apply Hpush; [exact Hf | apply modifier_spaceless3; exact Hm].
    - apply total_ret. exact I. }
  intros [st' |] H; [apply total_ret; exact H |].
  eapply total_bind; [apply total_getRandomElement; exact Hne | intros face Hface].
  eapply total_bind; [apply total_random | intros r _].
  apply total_ret. apply Hpush; [exact Hface |].
  destruct (Qlt_bool r (33 # 100)); [reflexivity |].
  destruct (Qlt_bool r (66 # 100)); reflexivity.
Qed.

Lemma total_generate3x3 :
  total generate3x3Scramble
        (fun out => exists st, cube_inv moves3x3 20 st /\ tokens out = scramble st).
Proof.
  unfold generate3x3Scramble.
  eapply total_bind.
  - apply (total_for_loop (cube_inv moves3x3) body3x3 body3x3_inv 20 0).
    apply cube_inv_start.
  - intros st Hst. apply total_ret. exists st. split; [exact Hst |].
    apply tokens_join. exact (inv_words _ _ _ Hst).
Qed.

(** C5.  On every random stream the 3x3 generator, which also serves
    ["3x3 BLD"] and ["3x3 OH"], returns exactly twenty tokens over the six
    faces; two consecutive tokens never turn faces of one axis, and no token
    turns the face of the token two places before it.  The passes that take
    the adjacent-face bias are passes of the same loop and are covered. *)
Theorem generate3x3_twenty_axis_free (s : stream) (p : nat) :
  exists out next,
    generate3x3Scramble s p = Done out next
    /\ generateScramble "3x3" s p = Done out next
    /\ generateScramble "3x3 BLD" s p = Done out next
    /\ generateScramble "3x3 OH" s p = Done out next
    /\ List.length (tokens out) = 20
    /\ Forall (fun f => In f moves3x3) (map faceOf (tokens out))
    /\ (forall i a b, nth_error (map faceOf (tokens out)) i = Some a ->
                      nth_error (map faceOf (tokens out)) (i + 1) = Some b ->
                      same_axis a b = false)
    /\ (forall i a b, nth_error (map faceOf (tokens out)) i = Some a ->
                      nth_error (map faceOf (tokens out)) (i + 2) = Some b ->
                      a <> b).
Proof.
  destruct (total_generate3x3 s p) as (out & next & E & st & Hinv & Htok).
  exists out, next. rewrite Htok.
  repeat split; try exact E.
  - exact (inv_length _ _ _ Hinv).
  - exact (inv_faces _ _ _ Hinv).
  - exact (inv_axis _ _ _ Hinv).
  - exact (inv_back _ _ _ Hinv).
Qed.

Example same_axis_table :
  map (fun a => filter (same_axis a) moves3x3) moves3x3
  = [["R"; "L"]; ["R"; "L"]; ["U"; "D"]; ["U"; "D"]; ["F"; "B"]; ["F"; "B"]].
Proof. reflexivity. Qed.

(* ================================================================= *)
(** ** 2x2: the third face is forced *)

Lemma candidates2x2_ok (scr : list string) (lm sl : string) :
  let st := mkTracking scr lm sl in
  let availableMoves :=
    relax moves2x2 st
      (drop_second_last st
         (if truthy (lastMove st) then
            filter (fun move => match lookup (lastMove st) sameAxis with
                                | Some axis => negb (includes axis move)
                                | None => true
                                end) moves2x2
          else moves2x2)) in
  reachable_ends moves2x2 st ->
  availableMoves <> []
  /\ forall f, In f availableMoves ->
       In f moves2x2 /\ (lm <> "" -> same_axis lm f = false) /\ (sl <> "" -> sl <> f).
Proof.
  intros st availableMoves H. subst st availableMoves. unfold reachable_ends in H.
  each_ends H;
    (split; [vm_compute; discriminate |]);
    intros f Hf; vm_compute in Hf;
    repeat (destruct Hf as [<- | Hf]); try contradiction;
    (split; [simpl; auto 10 |]);
    (split; [intros _; reflexivity | intros ?; try congruence; discriminate]).
Qed.

(** One pass of the 2x2 loop keeps the invariant. *)
Lemma body2x2_inv (i : nat) (st : tracking) :
  cube_inv moves2x2 i st -> total (body2x2 i st) (cube_inv moves2x2 (S i)).
Proof.
  intros Hinv. pose proof (cube_inv_reachable _ _ _ Hinv) as Hreach.
  unfold body2x2. destruct st as [scr lm sl].
  destruct (candidates2x2_ok scr lm sl Hreach) as [Hne Hok].
  set (availableMoves := relax moves2x2 _ _) in *.
  assert (Hpush : forall f m, In f availableMoves -> has_space m = false ->
            cube_inv moves2x2 (S i) (push_move (mkTracking scr lm sl) (f ++ m) f)).
  { intros f m Hf Hm. destruct (Hok f Hf) as (Hin & Hax & Hbk).
    destruct (letters_token _ f m letters_moves2x2 Hin Hm) as [Hw Hface].
    apply cube_inv_push; try assumption.
    intros g Hg. eapply letters_nonempty; [apply letters_moves2x2 | exact Hg]. }
  eapply total_bind.
  { instantiate (1 := fun r => match r with
                               | Some st' => cube_inv moves2x2 (S i) st'
                               | None => True
                               end).
    destruct ((0 <? i)%nat && (i mod 3 =? 0)%nat && truthy _).
    - eapply total_weaken; [apply total_biased_move |].
      intros [st' |] H; [| exact I]. destruct H as (f & m & Hf & Hm & ->).
      apply Hpush; [exact Hf | apply modifier_spaceless3; exact Hm].
    - apply total_ret. exact I. }
  intros [st' |] H; [apply total_ret; exact H |].
  eapply total_bind; [apply total_getRandomElement; exact Hne | intros face Hface].
  eapply total_bind; [apply total_random | intros r _].
  apply total_ret. apply Hpush; [exact Hface |].
  destruct (Qlt_bool r (3 # 10)); [reflexivity |].
  destruct (Qlt_bool r (65 # 100)); reflexivity.
Qed.

Lemma total_generate2x2 :
  total generate2x2Scramble
        (fun out => exists n st, 9 <= n <= 11 /\ cube_inv moves2x2 n st
                                 /\ tokens out = scramble st).
Proof.
  unfold generate2x2Scramble.
  eapply total_bind; [apply (total_getRandomInt 9 11); lia | intros moveCount Hc].
  eapply total_bind.
  - apply (total_for_loop (cube_inv moves2x2) body2x2 body2x2_inv (Z.to_nat moveCount) 0).
    apply cube_inv_start.
  - intros st Hst. apply total_ret. exists (Z.to_nat moveCount), st.
    cbv beta in Hc. split; [lia |]. split; [exact Hst |].
    apply tokens_join. exact (inv_words _ _ _ Hst).
Qed.

(** C9.  On every random stream the 2x2 generator returns between nine and
    eleven tokens over R, U and F; each token's face differs from the face
    one place back and from the face two places back; so from the third
    token on the face is the single face of R, U, F that the two tokens
    before it leave over. *)
Theorem generate2x2_faces_cycle (s : stream) (p : nat) :
  exists out next,
    generateScramble "2x2" s p = Done out next
    /\ 9 <= List.length (tokens out) <= 11
    /\ Forall (fun f => In f moves2x2) (map faceOf (tokens out))
    /\ (forall i a b, nth_error (map faceOf (tokens out)) i = Some a ->
                      nth_error (map faceOf (tokens out)) (i + 1) = Some b ->
                      a <> b)
    /\ (forall i a b, nth_error (map faceOf (tokens out)) i = Some a ->
                      nth_error (map faceOf (tokens out)) (i + 2) = Some b ->
                      a <> b)
    /\ (forall i a b c, nth_error (map faceOf (tokens out)) i = Some a ->
                        nth_error (map faceOf (tokens out)) (i + 1) = Some b ->
                        nth_error (map faceOf (tokens out)) (i + 2) = Some c ->
                        remaining2x2 a b = [c]).
Proof.
  change (generateScramble "2x2") with generate2x2Scramble.
  destruct (total_generate2x2 s p) as (out & next & E & n & st & Hn & Hinv & Htok).
  exists out, next. rewrite Htok.
  pose proof (inv_faces _ _ _ Hinv) as Hfaces. rewrite Forall_forall in Hfaces.
  assert (Hadj : forall i a b, nth_error (map faceOf (scramble st)) i = Some a ->
                               nth_error (map faceOf (scramble st)) (i + 1) = Some b ->
                               a <> b).
  { intros i a b Ha Hb Eab. subst b.
    pose proof (inv_axis _ _ _ Hinv i a a Ha Hb) as Hax.
    apply nth_error_In, Hfaces in Ha. each_member Ha; discriminate. }
  split; [exact E |].
  split; [rewrite (inv_length _ _ _ Hinv); exact Hn |].
  split; [apply Forall_forall; exact Hfaces |].
  split; [exact Hadj |].
  split; [exact (inv_back _ _ _ Hinv) |].
  intros i a b c Ha Hb Hc.
  assert (Hab : a <> b) by exact (Hadj i a b Ha Hb).
  assert (Hac : a <> c) by exact (inv_back _ _ _ Hinv i a c Ha Hc).
  assert (Hbc : b <> c).
  { apply (Hadj (i + 1) b c Hb). rewrite <- Nat.add_assoc. exact Hc. }
  apply nth_error_In, Hfaces in Ha, Hb, Hc.
  each_member Ha; each_member Hb; each_member Hc;
    try reflexivity; congruence.
Qed.

(* ================================================================= *)
(** ** No generator picks from an empty array *)

(** A run stops with [EmptyPick] at a call of [getRandomElement] exactly when
    the array handed over is empty. *)
Lemma getRandomElement_empty_iff {T} (array : list T) (s : stream) (p : nat) :
  getRandomElement array s p = Fail EmptyPick <-> array = [].
Proof.
  split.
  - intros H. destruct array as [| x rest]; [reflexivity |].
    destruct (getRandomElement_Done (x :: rest) s p) as (y & E & _); [discriminate |].
    congruence.
  - intros ->. unfold getRandomElement, bind, Math_random.
    destruct (Z.to_nat _); reflexivity.
Qed.

Lemma filter_other_nonempty (a b x : string) (rest : list string) :
  a <> b -> filter (fun move => negb (move =? x)) (a :: b :: rest) <> [].
Proof.
  intros Hab. simpl.
  destruct (String.eqb_spec a x) as [Ea | Ea]; simpl; [| discriminate].
  destruct (String.eqb_spec b x) as [Eb | Eb]; simpl; [congruence | discriminate].
Qed.

Lemma relax_nonempty (a b : string) (rest : list string) (st : tracking)
    (availableMoves : list string) :
  a <> b -> relax (a :: b :: rest) st availableMoves <> [].
Proof.
  intros Hab. unfold relax. destruct availableMoves as [| m ms]; simpl Nat.eqb; cbv iota.
  - apply filter_other_nonempty. exact Hab.
  - discriminate.
Qed.

Lemma total_bodySkewb (i : nat) (st : tracking) :
  total (bodySkewb i st) (fun _ => True).
Proof.
  unfold bodySkewb.
  eapply total_bind with (P := fun _ => True).
  - destruct (if truthy (lastMove st) then lookup (lastMove st) adjacentCorners else None)
      as [neighbours |]; [| apply total_ret; exact I].
    eapply total_bind; [apply total_random | intros r _].
    destruct (Qlt_bool r (7 # 10)); [| apply total_ret; exact I].
    destruct (filter _ neighbours) as [| c cs] eqn:E; simpl Nat.ltb; cbv iota;
      [apply total_ret; exact I |].
    eapply total_bind; [apply total_getRandomElement; discriminate | intros corner _].
    eapply total_bind; [apply total_random | intros r' _].
    apply total_ret. exact I.
  - intros [st' |] _; [apply total_ret; exact I |].
    eapply total_bind;
      [apply total_getRandomElement; apply filter_other_nonempty; discriminate
      | intros corner _].
    eapply total_bind; [apply total_random | intros r _].
    apply total_ret. exact I.
Qed.

Lemma total_generateSkewb : total generateSkewbScramble (fun _ => True).
Proof.
  unfold generateSkewbScramble.
  eapply total_bind.
  - apply (total_for_loop (fun _ _ => True) bodySkewb); [| exact I].
    intros i st _. apply total_bodySkewb.
  - intros st _. apply total_ret. exact I.
Qed.

Lemma total_push_pattern (xs : list string) (scr : list string) :
  total (for_of xs push_pattern scr) (fun _ => True).
Proof.
  apply (total_for_of (fun _ _ => True) push_pattern) with (done := []); [| exact I].
  intros done x st _. unfold push_pattern.
  eapply total_bind; [apply total_getRandomElement; discriminate | intros m _].
  apply total_ret. exact I.
Qed.

(** A pass of the Pyraminx loop returns, and never moves [i] backwards. *)
Lemma total_bodyPyraminx (moveCount i : nat) (st : tracking) :
  total (bodyPyraminx moveCount i st) (fun r => i <= snd r).
Proof.
  unfold bodyPyraminx.
  eapply total_bind with (P := fun r => match r with
                                        | Some r => i <= snd r
                                        | None => True
                                        end).
  - destruct ((i mod 3 =? 0)%nat && (i + 1 <? moveCount)%nat); [| apply total_ret; exact I].
    eapply total_bind; [apply total_getRandomElement; discriminate | intros pattern _].
    destruct (negb _); [| apply total_ret; exact I].
    eapply total_bind; [apply total_push_pattern | intros scr _].
    apply total_ret. simpl. lia.
  - intros [r |] Hr; [apply total_ret; exact Hr |].
    eapply total_bind;
      [apply total_getRandomElement; apply relax_nonempty; discriminate | intros move _].
    eapply total_bind; [apply total_random | intros r _].
    apply total_ret. simpl. lia.
Qed.

Lemma total_loopPyraminx (gas moveCount : nat) :
  forall i st, moveCount <= i + gas ->
               total (loopPyraminx gas moveCount i st) (fun _ => True).
Proof.
  induction gas as [| gas IH]; intros i st Hgas; simpl.
  - destruct (Nat.ltb_spec i moveCount); [lia | apply total_ret; exact I].
  - destruct (Nat.ltb_spec i moveCount); [| apply total_ret; exact I].
    eapply total_bind; [apply total_bodyPyraminx | intros r Hr].
    apply IH. simpl in Hr. lia.
Qed.

Lemma total_loopTips (n : nat) :
  forall usedTips scr, total (loopTips n usedTips scr) (fun _ => True).
Proof.
  induction n as [| n IH]; intros usedTips scr; cbn [loopTips].
  - apply total_ret. exact I.
  - cbv zeta.
    destruct (filter _ tipMoves) as [| t ts] eqn:E; simpl Nat.eqb; cbv iota.
    + apply total_ret. exact I.
    + eapply total_bind; [apply total_getRandomElement; discriminate | intros tip _].
      eapply total_bind; [apply total_getRandomElement; discriminate | intros m _].
      apply IH.
Qed.

Lemma total_generatePyraminx : total generatePyraminxScramble (fun _ => True).
Proof.
  unfold generatePyraminxScramble, basePyraminx.
  eapply total_bind with (P := fun _ => True).
  - eapply total_bind; [apply (total_getRandomInt 8 10); lia | intros moveCount _].
    apply total_loopPyraminx. lia.
  - intros st _.
    eapply total_bind; [apply (total_getRandomInt 0 2); lia | intros tipCount _].
    eapply total_bind; [apply total_loopTips | intros scr _].
    apply total_ret. exact I.
Qed.

(** Every standard generator returns on every stream. *)
Lemma total_generateScramble (cubeType : string) :
  total (generateScramble cubeType) (fun _ => True).
Proof.
  assert (H3 : total generate3x3Scramble (fun _ => True)).
  { eapply total_weaken; [apply total_generate3x3 | auto]. }
  unfold generateScramble, generate3x3BLDScramble, generate3x3OHScramble.
  repeat match goal with
         | |- total (if ?c then _ else _) _ => destruct c
         end;
    try exact H3;
    try apply total_generateSkewb; try apply total_generatePyraminx.
  - eapply total_weaken; [apply total_generate2x2 | auto].
  - eapply total_weaken; [apply total_clock | auto].
Qed.

Lemma facesFor_nonempty (difficulty : string) : facesFor difficulty <> [].
Proof.
  unfold facesFor.
  destruct (difficulty =? "easy"); [discriminate |].
  destruct (difficulty =? "hard"); discriminate.
Qed.

Lemma modifiersFor_nonempty (difficulty : string) : modifiersFor difficulty <> [].
Proof.
  unfold modifiersFor.
  destruct (difficulty =? "easy"); [discriminate |].
  destruct (difficulty =? "hard"); discriminate.
Qed.

Lemma modifiers2x2For_nonempty (difficulty : string) : modifiers2x2For difficulty <> [].
Proof.
  unfold modifiers2x2For.
  destruct (difficulty =? "easy"); [discriminate |].
  destruct (difficulty =? "hard"); discriminate.
Qed.

Lemma partial_generateCustom3x3 (fuel : nat) (moves : option Z) (difficulty : option string) :
  partial (generateCustom3x3Scramble fuel moves difficulty) (fun _ => True).
Proof.
  unfold generateCustom3x3Scramble.
  eapply partial_bind.
  - apply (partial_for_loop (fun _ _ => True)); [| exact I].
    intros i st _. unfold bodyCustom3x3.
    eapply partial_bind; [apply partial_sampleFace, facesFor_nonempty | intros face _].
    eapply partial_bind;
      [apply total_partial, total_getRandomElement, modifiersFor_nonempty | intros m _].
    apply partial_ret. exact I.
  - intros st _. apply partial_ret. exact I.
Qed.

Lemma partial_generateCustom2x2 (fuel : nat) (moves : option Z) (difficulty : option string) :
  partial (generateCustom2x2Scramble fuel moves difficulty) (fun _ => True).
Proof.
  unfold generateCustom2x2Scramble.
  eapply partial_bind.
  - apply (partial_for_loop (fun _ _ => True)); [| exact I].
    intros i st _. unfold bodyCustom2x2.
    eapply partial_bind; [apply partial_sampleFace; discriminate | intros face _].
    eapply partial_bind;
      [apply total_partial, total_getRandomElement, modifiers2x2For_nonempty | intros m _].
    apply partial_ret. exact I.
  - intros st _. apply partial_ret. exact I.
Qed.

Lemma partial_generateCustomScramble (fuel : nat) (cubeType : string) (moves : option Z)
    (difficulty : option string) :
  partial (generateCustomScramble fuel cubeType moves difficulty) (fun _ => True).
Proof.
  unfold generateCustomScramble.
  repeat match goal with
         | |- partial (if ?c then _ else _) _ => destruct c
         end;
    try apply partial_generateCustom3x3; try apply partial_generateCustom2x2;
    apply total_partial.
  - apply total_generatePyraminx.
  - apply total_generateSkewb.
  - eapply total_weaken; [apply total_clock | auto].
Qed.

(** C6.  For every puzzle type, every move count and difficulty, every retry
    budget and every random stream, no run of [generateScramble] or of
    [generateCustomScramble] stops at a call of [getRandomElement] on an
    empty array.  The standard generators indeed always return; the custom
    ones return unless a retry loop is cut off by its budget, and as this
    holds for every budget, no retry however late meets an empty array. *)
Theorem getRandomElement_never_empty
    (cubeType : string) (moves : option Z) (difficulty : option string)
    (fuel : nat) (s : stream) (p : nat) :
  generateScramble cubeType s p <> Fail EmptyPick
  /\ generateCustomScramble fuel cubeType moves difficulty s p <> Fail EmptyPick
  /\ (exists out next, generateScramble cubeType s p = Done out next)
  /\ ((exists out next,
          generateCustomScramble fuel cubeType moves difficulty s p = Done out next)
      \/ generateCustomScramble fuel cubeType moves difficulty s p = Fail OutOfFuel).
Proof.
  destruct (total_generateScramble cubeType s p) as (out & next & E & _).
  pose proof (partial_generateCustomScramble fuel cubeType moves difficulty s p) as Hc.
  split; [rewrite E; discriminate |].
  split; [destruct Hc as [(o & n & Ec & _) | Ec]; rewrite Ec; discriminate |].
  split; [exists out, next; exact E |].
  destruct Hc as [(o & n & Ec & _) | Ec]; [left; exists o, n; exact Ec | right; exact Ec].
Qed.

(* ================================================================= *)
(** ** Custom 3x3: the retry loop always has a face to accept *)

Lemma lookup_In {V} (key : string) (table : list (string * V)) (v : V) :
  lookup key table = Some v -> In (key, v) table.
Proof.
  induction table as [| [k w] rest IH]; simpl; [discriminate |].
  destruct (String.eqb_spec k key) as [-> | _].
  - intros [= ->]. left. reflexivity.
  - intros H. right. apply IH. exact H.
Qed.

(** A face of the cube is rejected only when the last face or the tracked
    axis lies on its axis. *)
Lemma rejected_needs_axis (lastFace lastAxis face : string) :
  In face moves3x3 -> rejected lastFace lastAxis face = true ->
  (In lastFace moves3x3 /\ same_axis face lastFace = true)
  \/ (In lastAxis moves3x3 /\ same_axis face lastAxis = true).
Proof.
  intros Hf H. unfold rejected in H.
  apply orb_true_iff in H. destruct H as [H | H];
    [apply orb_true_iff in H; destruct H as [H | H] |].
  - apply String.eqb_eq in H. subst lastFace. left.
    each_member Hf; split; simpl; auto 10.
  - destruct (lookup lastFace opposites) as [opposite |] eqn:E; [| discriminate].
    apply String.eqb_eq in H. subst opposite. apply lookup_In in E. left.
    simpl in E.
    repeat (destruct E as [E | E]; [injection E as <- <-; split; simpl; auto 10 |]).
    contradiction.
  - apply andb_true_iff in H. destruct H as [_ H]. right.
    split; [| exact H].
    each_member Hf; simpl in H;
      repeat (apply orb_true_iff in H; destruct H as [H | H]); try discriminate;
      apply String.eqb_eq in H; subst; simpl; auto 10.
Qed.

Lemma facesFor_cube (difficulty face : string) :
  In face moves3x3 -> In face (facesFor difficulty).
Proof.
  intros H. unfold facesFor.
  destruct (difficulty =? "easy"); [exact H |].
  destruct (difficulty =? "hard"); [apply in_or_app; left; exact H | exact H].
Qed.

(** Whatever the difficulty and whatever the trackers hold, one of R, U, F
    passes the [while] test. *)
Lemma acceptable_face_exists (difficulty lastFace lastAxis : string) :
  exists face, In face (facesFor difficulty) /\ rejected lastFace lastAxis face = false.
Proof.
  destruct (rejected lastFace lastAxis "R") eqn:ER;
    [| exists "R"; split; [apply facesFor_cube; simpl; auto | exact ER]].
  destruct (rejected lastFace lastAxis "U") eqn:EU;
    [| exists "U"; split; [apply facesFor_cube; simpl; auto | exact EU]].
  destruct (rejected lastFace lastAxis "F") eqn:EF;
    [| exists "F"; split; [apply facesFor_cube; simpl; auto 10 | exact EF]].
  exfalso.
  apply rejected_needs_axis in ER; [| simpl; auto].
  apply rejected_needs_axis in EU; [| simpl; auto].
  apply rejected_needs_axis in EF; [| simpl; auto 10].
  destruct ER as [[HR ER] | [HR ER]]; destruct EU as [[HU EU] | [HU EU]];
    destruct EF as [[HF EF] | [HF EF]];
    try (each_member HR; discriminate);
    try (each_member HU; discriminate);
    try (each_member HF; discriminate).
Qed.

(* ================================================================= *)
(** ** Retry loops on streams that keep offering every index *)

Lemma monotone_const {A} (m : Gen A) : monotone (fun _ => m).
Proof. intros fuel fuel' s p a next _ H. exact H. Qed.

Lemma monotone_bind {A B} (m : nat -> Gen A) (k : nat -> A -> Gen B) :
  monotone m -> (forall a, monotone (fun fuel => k fuel a)) ->
  monotone (fun fuel => bind (m fuel) (k fuel)).
Proof.
  intros Hm Hk fuel fuel' s p b next Hle. unfold bind.
  destruct (m fuel s p) as [a p1 |] eqn:E; [| discriminate].
  rewrite (Hm fuel fuel' s p a p1 Hle E). apply Hk. exact Hle.
Qed.

Lemma monotone_for_loop {St} (body : nat -> nat -> St -> Gen St) (n : nat) :
  (forall i st, monotone (fun fuel => body fuel i st)) ->
  forall i st, monotone (fun fuel => for_loop n i (body fuel) st).
Proof.
  intros Hbody. induction n as [| n IH]; intros i st; simpl.
  - apply monotone_const.
  - apply (monotone_bind (fun fuel => body fuel i st)
                         (fun fuel st' => for_loop n (S i) (body fuel) st')).
    + apply Hbody.
    + intros st'. apply IH.
Qed.

Lemma monotone_sampleFace (faces : list string) (reject : string -> bool) :
  monotone (fun fuel => sampleFace fuel faces reject).
Proof.
  intros fuel. induction fuel as [| fuel IH]; intros fuel' s p a next Hle; simpl.
  - discriminate.
  - destruct fuel' as [| fuel']; [lia |]. simpl. unfold bind.
    destruct (getRandomElement faces s p) as [face p1 |]; [| discriminate].
    destruct (reject face); [| auto].
    apply IH. lia.
Qed.

Lemma eventually_total {A} (m : Gen A) (s : stream) (Q : A -> Prop) :
  total m Q -> eventually (fun _ => m) s Q.
Proof.
  intros H p. destruct (H s p) as (a & next & E & Ha). exists 0, a, next. auto.
Qed.

Lemma eventually_bind {A B} (m : nat -> Gen A) (k : nat -> A -> Gen B) (s : stream)
    (P : A -> Prop) (Q : B -> Prop) :
  monotone m -> (forall a, monotone (fun fuel => k fuel a)) ->
  eventually m s P -> (forall a, P a -> eventually (fun fuel => k fuel a) s Q) ->
  eventually (fun fuel => bind (m fuel) (k fuel)) s Q.
Proof.
  intros Mm Mk Hm Hk p.
  destruct (Hm p) as (f1 & a & p1 & E1 & Ha).
  destruct (Hk a Ha p1) as (f2 & b & p2 & E2 & Hb).
  exists (Nat.max f1 f2), b, p2. split; [| exact Hb]. unfold bind.
  rewrite (Mm f1 (Nat.max f1 f2) s p a p1 (Nat.le_max_l _ _) E1).
  exact (Mk a f2 (Nat.max f1 f2) s p1 b p2 (Nat.le_max_r _ _) E2).
Qed.

Lemma eventually_for_loop {St} (body : nat -> nat -> St -> Gen St) (s : stream)
    (Inv : nat -> St -> Prop) :
  (forall i st, monotone (fun fuel => body fuel i st)) ->
  (forall i st, Inv i st -> eventually (fun fuel => body fuel i st) s (Inv (S i))) ->
  forall n i st, Inv i st ->
                 eventually (fun fuel => for_loop n i (body fuel) st) s (Inv (i + n)).
Proof.
  intros Mb Hb n. induction n as [| n IH]; intros i st Hinv; simpl.
  - apply (eventually_total (ret st)). apply total_ret.
    rewrite Nat.add_0_r. exact Hinv.
  - apply (eventually_bind (fun fuel => body fuel i st)
                           (fun fuel st' => for_loop n (S i) (body fuel) st')
                           s (Inv (S i))).
    + apply Mb.
    + intros st'. apply monotone_for_loop. exact Mb.
    + apply Hb. exact Hinv.
    + intros st' Hst'. rewrite <- Nat.add_succ_comm. apply IH. exact Hst'.
Qed.

Lemma getRandomElement_pick {T} (array : list T) (s : stream) (p : nat) :
  getRandomElement array s p
  = match nth_error array (pick (List.length array) (s p)) with
    | Some x => Done x (S p)
    | None => Fail EmptyPick
    end.
Proof.
  unfold getRandomElement, bind, Math_random, pick.
  destruct (nth_error array _); reflexivity.
Qed.

(** On a recurrent stream the retry loop finds a face, as soon as one face of
    the alphabet is acceptable. *)
Lemma eventually_sampleFace (faces : list string) (reject : string -> bool) (s : stream) :
  recurrent (List.length faces) s ->
  (exists face, In face faces /\ reject face = false) ->
  eventually (fun fuel => sampleFace fuel faces reject) s
             (fun face => In face faces /\ reject face = false).
Proof.
  intros Hrec (good & Hin & Hgood) p.
  destruct (In_nth_error _ _ Hin) as (i & Hi).
  assert (Hlt : i < List.length faces) by (apply nth_error_Some; congruence).
  destruct (Hrec p i Hlt) as (j & Hj).
  revert p Hj. induction j as [| j IH]; intros p Hj.
  - exists 1, good, (S p). simpl. unfold bind.
    rewrite getRandomElement_pick. rewrite Nat.add_0_r in Hj. rewrite Hj, Hi, Hgood.
    auto.
  - destruct (getRandomElement_Done faces s p) as (x & E & Hx).
    { intros ->. destruct Hin. }
    destruct (reject x) eqn:R.
    + destruct (IH (S p)) as (fuel & a & next & E' & Ha).
      { rewrite <- Nat.add_succ_comm in Hj. exact Hj. }
      exists (S fuel), a, next. simpl. unfold bind. rewrite E, R. auto.
    + exists 1, x, (S p). simpl. unfold bind. rewrite E, R. auto.
Qed.

Lemma eventually_settles {A} (m : nat -> Gen A) (s : stream) (Q : A -> Prop) (p : nat) :
  monotone m -> eventually m s Q ->
  exists fuel, forall fuel', fuel <= fuel' ->
    exists a next, m fuel' s p = Done a next /\ Q a.
Proof.
  intros Hm He. destruct (He p) as (fuel & a & next & E & Ha).
  exists fuel. intros fuel' Hle. exists a, next.
  split; [exact (Hm fuel fuel' s p a next Hle E) | exact Ha].
Qed.

(* ================================================================= *)
(** ** Custom generators: how many tokens, over which alphabet *)

Lemma custom_inv_push (faces modifiers : list string) (i : nat) (scr : list string)
    (face modifier : string) :
  letters faces -> spaceless modifiers ->
  custom_inv faces modifiers i scr -> In face faces -> In modifier modifiers ->
  custom_inv faces modifiers (S i) (push scr (face ++ modifier)).
Proof.
  intros Hl Hs (Hlen & Hw & Ho) Hf Hm.
  split; [rewrite length_push; lia |].
  split; apply Forall_push; try assumption.
  - apply (letters_token faces); auto.
  - exists face, modifier. auto.
Qed.

Lemma letters_facesFor (difficulty : string) : letters (facesFor difficulty).
Proof.
  unfold facesFor.
  destruct (difficulty =? "easy"); [apply letters_moves3x3 |].
  destruct (difficulty =? "hard"); [| apply letters_moves3x3].
  intros f H. each_member H; eexists; split; reflexivity.
Qed.

Lemma spaceless_modifiersFor (difficulty : string) : spaceless (modifiersFor difficulty).
Proof.
  unfold modifiersFor.
  destruct (difficulty =? "easy"); [| destruct (difficulty =? "hard")];
    intros m H; each_member H; reflexivity.
Qed.

Lemma spaceless_modifiers2x2For (difficulty : string) : spaceless (modifiers2x2For difficulty).
Proof.
  unfold modifiers2x2For.
  destruct (difficulty =? "easy"); [| destruct (difficulty =? "hard")];
    intros m H; each_member H; reflexivity.
Qed.

Section Custom3x3.
Variable difficulty : string.

Lemma monotone_bodyCustom3x3 (i : nat) (st : customTracking) :
  monotone (fun fuel =>
              bodyCustom3x3 fuel (facesFor difficulty) (modifiersFor difficulty) i st).
Proof.
  apply (monotone_bind
           (fun fuel => sampleFace fuel (facesFor difficulty)
                          (rejected (lastFace st) (lastAxis st)))
           (fun _ => settle3x3 difficulty st)).
  - apply monotone_sampleFace.
  - intros face. apply monotone_const.
Qed.

Lemma total_settle3x3 (i : nat) (st : customTracking) (face : string) :
  custom3x3_inv difficulty i st -> In face (facesFor difficulty) ->
  total (settle3x3 difficulty st face) (custom3x3_inv difficulty (S i)).
Proof.
  intros Hinv Hface. unfold settle3x3.
  eapply total_bind; [apply total_getRandomElement, modifiersFor_nonempty | intros m Hm].
  apply total_ret. unfold custom3x3_inv. simpl.
  apply custom_inv_push;
    [apply letters_facesFor | apply spaceless_modifiersFor | exact Hinv
    | exact Hface | exact Hm].
Qed.

Lemma partial_bodyCustom3x3 (fuel i : nat) (st : customTracking) :
  custom3x3_inv difficulty i st ->
  partial (bodyCustom3x3 fuel (facesFor difficulty) (modifiersFor difficulty) i st)
          (custom3x3_inv difficulty (S i)).
Proof.
  intros Hinv.
  apply (partial_bind _ (settle3x3 difficulty st)
           (fun face => In face (facesFor difficulty)
                        /\ rejected (lastFace st) (lastAxis st) face = false)).
  - apply partial_sampleFace, facesFor_nonempty.
  - intros face [Hface _]. apply total_partial, (total_settle3x3 i); assumption.
Qed.

Lemma eventually_bodyCustom3x3 (s : stream) (i : nat) (st : customTracking) :
  recurrent (List.length (facesFor difficulty)) s ->
  custom3x3_inv difficulty i st ->
  eventually (fun fuel =>
                bodyCustom3x3 fuel (facesFor difficulty) (modifiersFor difficulty) i st)
             s (custom3x3_inv difficulty (S i)).
Proof.
  intros Hrec Hinv.
  apply (eventually_bind
           (fun fuel => sampleFace fuel (facesFor difficulty)
                          (rejected (lastFace st) (lastAxis st)))
           (fun _ => settle3x3 difficulty st)
           s (fun face => In face (facesFor difficulty)
                          /\ rejected (lastFace st) (lastAxis st) face = false)).
  - apply monotone_sampleFace.
  - intros face. apply monotone_const.
  - apply eventually_sampleFace; [exact Hrec | apply acceptable_face_exists].
  - intros face [Hface _]. apply eventually_total, (total_settle3x3 i); assumption.
Qed.

Lemma monotone_generateCustom3x3 (moves : option Z) :
  monotone (fun fuel => generateCustom3x3Scramble fuel moves (Some difficulty)).
Proof.
  apply (monotone_bind
           (fun fuel =>
              for_loop (Z.to_nat (defaulting moves 20%Z)) 0
                (bodyCustom3x3 fuel (facesFor difficulty) (modifiersFor difficulty))
                (mkCustom [] "" ""))
           (fun _ st => ret (join (customScramble st)))).
  - apply monotone_for_loop. apply monotone_bodyCustom3x3.
  - intros st. apply monotone_const.
Qed.

Lemma partial_generateCustom3x3_count (fuel : nat) (moves : option Z) :
  partial (generateCustom3x3Scramble fuel moves (Some difficulty))
          (fun out =>
             List.length (tokens out) = Z.to_nat (defaulting moves 20%Z)
             /\ Forall (over (facesFor difficulty) (modifiersFor difficulty)) (tokens out)).
Proof.
  unfold generateCustom3x3Scramble. simpl defaulting.
  eapply partial_bind.
  - apply (partial_for_loop (custom3x3_inv difficulty));
      [intros i st; apply partial_bodyCustom3x3 |].
    repeat split; constructor.
  - intros st (Hlen & Hw & Ho). apply partial_ret.
    rewrite (tokens_join _ Hw). split; [exact Hlen | exact Ho].
Qed.

Lemma eventually_generateCustom3x3 (s : stream) (moves : option Z) :
  recurrent (List.length (facesFor difficulty)) s ->
  eventually (fun fuel => generateCustom3x3Scramble fuel moves (Some difficulty)) s
             (fun out =>
                List.length (tokens out) = Z.to_nat (defaulting moves 20%Z)
                /\ Forall (over (facesFor difficulty) (modifiersFor difficulty))
                          (tokens out)).
Proof.
  intros Hrec.
  apply (eventually_bind
           (fun fuel =>
              for_loop (Z.to_nat (defaulting moves 20%Z)) 0
                (bodyCustom3x3 fuel (facesFor difficulty) (modifiersFor difficulty))
                (mkCustom [] "" ""))
           (fun _ st => ret (join (customScramble st)))
           s (custom3x3_inv difficulty (0 + Z.to_nat (defaulting moves 20%Z)))).
  - apply monotone_for_loop. apply monotone_bodyCustom3x3.
  - intros st. apply monotone_const.
  - apply (eventually_for_loop
             (fun fuel => bodyCustom3x3 fuel (facesFor difficulty) (modifiersFor difficulty))
             s (custom3x3_inv difficulty)).
    + apply monotone_bodyCustom3x3.
    + intros i st. apply eventually_bodyCustom3x3. exact Hrec.
    + repeat split; constructor.
  - intros st (Hlen & Hw & Ho). apply eventually_total, total_ret.
    rewrite (tokens_join _ Hw). split; [exact Hlen | exact Ho].
Qed.
End Custom3x3.

Lemma other_face_exists (lastFace : string) :
  exists face, In face moves2x2 /\ (face =? lastFace) = false.
Proof.
  destruct ("R" =? lastFace) eqn:ER; [| exists "R"; simpl; auto].
  apply String.eqb_eq in ER. subst lastFace. exists "U". simpl. auto.
Qed.

Section Custom2x2.
Variable difficulty : string.

Lemma monotone_bodyCustom2x2 (i : nat) (st : list string * string) :
  monotone (fun fuel => bodyCustom2x2 fuel (modifiers2x2For difficulty) i st).
Proof.
  apply (monotone_bind
           (fun fuel => sampleFace fuel moves2x2 (fun face => face =? snd st))
           (fun _ => settle2x2 difficulty st)).
  - apply monotone_sampleFace.
  - intros face. apply monotone_const.
Qed.

Lemma total_settle2x2 (i : nat) (st : list string * string) (face : string) :
  custom2x2_inv difficulty i st -> In face moves2x2 ->
  total (settle2x2 difficulty st face) (custom2x2_inv difficulty (S i)).
Proof.
  intros Hinv Hface. unfold settle2x2.
  eapply total_bind;
    [apply total_getRandomElement, modifiers2x2For_nonempty | intros m Hm].
  apply total_ret. unfold custom2x2_inv. simpl.
  apply custom_inv_push;
    [apply letters_moves2x2 | apply spaceless_modifiers2x2For | exact Hinv
    | exact Hface | exact Hm].
Qed.

Lemma partial_bodyCustom2x2 (fuel i : nat) (st : list string * string) :
  custom2x2_inv difficulty i st ->
  partial (bodyCustom2x2 fuel (modifiers2x2For difficulty) i st)
          (custom2x2_inv difficulty (S i)).
Proof.
  intros Hinv.
  apply (partial_bind _ (settle2x2 difficulty st)
           (fun face => In face moves2x2 /\ (face =? snd st) = false)).
  - apply partial_sampleFace. discriminate.
  - intros face [Hface _]. apply total_partial, (total_settle2x2 i); assumption.
Qed.

Lemma eventually_bodyCustom2x2 (s : stream) (i : nat) (st : list string * string) :
  recurrent 3 s ->
  custom2x2_inv difficulty i st ->
  eventually (fun fuel => bodyCustom2x2 fuel (modifiers2x2For difficulty) i st)
             s (custom2x2_inv difficulty (S i)).
Proof.
  intros Hrec Hinv.
  apply (eventually_bind
           (fun fuel => sampleFace fuel moves2x2 (fun face => face =? snd st))
           (fun _ => settle2x2 difficulty st)
           s (fun face => In face moves2x2 /\ (face =? snd st) = false)).
  - apply monotone_sampleFace.
  - intros face. apply monotone_const.
  - apply eventually_sampleFace; [exact Hrec | apply other_face_exists].
  - intros face [Hface _]. apply eventually_total, (total_settle2x2 i); assumption.
Qed.

Lemma monotone_generateCustom2x2 (moves : option Z) :
  monotone (fun fuel => generateCustom2x2Scramble fuel moves (Some difficulty)).
Proof.
  apply (monotone_bind
           (fun fuel =>
              for_loop (Z.to_nat (adjustMoves (defaulting moves 10%Z) difficulty)) 0
                (bodyCustom2x2 fuel (modifiers2x2For difficulty)) ([], ""))
           (fun _ st => ret (join (fst st)))).
  - apply monotone_for_loop. apply monotone_bodyCustom2x2.
  - intros st. apply monotone_const.
Qed.

Lemma partial_generateCustom2x2_count (fuel : nat) (moves : option Z) :
  partial (generateCustom2x2Scramble fuel moves (Some difficulty))
          (fun out =>
             List.length (tokens out)
             = Z.to_nat (adjustMoves (defaulting moves 10%Z) difficulty)
             /\ Forall (over moves2x2 (modifiers2x2For difficulty)) (tokens out)).
Proof.
  unfold generateCustom2x2Scramble. simpl defaulting.
  eapply partial_bind.
  - apply (partial_for_loop (custom2x2_inv difficulty));
      [intros i st; apply partial_bodyCustom2x2 |].
    repeat split; constructor.
  - intros st (Hlen & Hw & Ho). apply partial_ret.
    rewrite (tokens_join _ Hw). split; [exact Hlen | exact Ho].
Qed.

Lemma eventually_generateCustom2x2 (s : stream) (moves : option Z) :
  recurrent 3 s ->
  eventually (fun fuel => generateCustom2x2Scramble fuel moves (Some difficulty)) s
             (fun out =>
                List.length (tokens out)
                = Z.to_nat (adjustMoves (defaulting moves 10%Z) difficulty)
                /\ Forall (over moves2x2 (modifiers2x2For difficulty)) (tokens out)).
Proof.
  intros Hrec.
  apply (eventually_bind
           (fun fuel =>
              for_loop (Z.to_nat (adjustMoves (defaulting moves 10%Z) difficulty)) 0
                (bodyCustom2x2 fuel (modifiers2x2For difficulty)) ([], ""))
           (fun _ st => ret (join (fst st)))
           s (custom2x2_inv difficulty
                (0 + Z.to_nat (adjustMoves (defaulting moves 10%Z) difficulty)))).
  - apply monotone_for_loop. apply monotone_bodyCustom2x2.
  - intros st. apply monotone_const.
  - apply (eventually_for_loop
             (fun fuel => bodyCustom2x2 fuel (modifiers2x2For difficulty))
             s (custom2x2_inv difficulty)).
    + apply monotone_bodyCustom2x2.
    + intros i st. apply eventually_bodyCustom2x2. exact Hrec.
    + repeat split; constructor.
  - intros st (Hlen & Hw & Ho). apply eventually_total, total_ret.
    rewrite (tokens_join _ Hw). split; [exact Hlen | exact Ho].
Qed.
End Custom2x2.

(** The stream [sixteenths] keeps offering every index of an array of three,
    six or nine entries. *)
Lemma sixteenths_recurrent (n : nat) :
  In n [3; 6; 9] -> recurrent n sixteenths.
Proof.
  intros Hn p i Hi.
  assert (Hq : exists q, q < 16 /\ pick n (Z.of_nat q # 16) = i).
  { simpl in Hn. destruct Hn as [<- | [<- | [<- | []]]];
      do 9 (try (destruct i as [| i]));
      try lia;
      first [ exists 0; split; [lia | reflexivity]
            | exists 2; split; [lia | reflexivity]
            | exists 3; split; [lia | reflexivity]
            | exists 4; split; [lia | reflexivity]
            | exists 6; split; [lia | reflexivity]
            | exists 8; split; [lia | reflexivity]
            | exists 9; split; [lia | reflexivity]
            | exists 11; split; [lia | reflexivity]
            | exists 13; split; [lia | reflexivity]
            | exists 14; split; [lia | reflexivity]
            | exists 15; split; [lia | reflexivity] ]. }
  destruct Hq as (q & Hq & Hpick).
  exists (q + 16 - p mod 16). unfold sixteenths.
  assert (E : (p + (q + 16 - p mod 16)) mod 16 = q).
  { pose proof (Nat.div_mod_eq p 16) as Hdm.
    pose proof (Nat.mod_upper_bound p 16) as Hub.
    replace (p + (q + 16 - p mod 16)) with (q + (p / 16 + 1) * 16) by lia.
    rewrite Nat.Div0.mod_add. apply Nat.mod_small. exact Hq. }
  rewrite E. exact Hpick.
Qed.

(* ================================================================= *)
(** ** Pyraminx: what the base loop does keep *)

Lemma letters_regularMoves : letters regularMoves.
Proof. intros f H. each_member H; eexists; split; reflexivity. Qed.

Lemma modifier_spaceless2 (m : string) : In m modifiers2 -> has_space m = false.
Proof. intros H. each_member H; reflexivity. Qed.

Lemma total_push_one (move : string) (scr : list string) :
  total (push_pattern move scr)
        (fun scr' => exists m, scr' = push scr (move ++ m) /\ In m modifiers2).
Proof.
  unfold push_pattern.
  eapply total_bind; [apply total_getRandomElement; discriminate | intros m Hm].
  apply total_ret. exists m. split; [reflexivity | exact Hm].
Qed.

Lemma total_push_pair (a b : string) (scr : list string) :
  total (for_of [a; b] push_pattern scr)
        (fun scr' => exists m1 m2, scr' = push (push scr (a ++ m1)) (b ++ m2)
                                   /\ In m1 modifiers2 /\ In m2 modifiers2).
Proof.
  cbn [for_of].
  eapply total_bind; [apply total_push_one | intros scr1 (m1 & -> & Hm1)].
  eapply total_bind; [apply total_push_one | intros scr2 (m2 & -> & Hm2)].
  apply total_ret. exists m1, m2. auto.
Qed.

Lemma pyraminx_inv_push (i : nat) (st : tracking) (face modifier : string) :
  pyraminx_inv i st -> In face regularMoves -> has_space modifier = false ->
  face <> lastMove st ->
  pyraminx_inv (S i) (push_move st (face ++ modifier) face).
Proof.
  intros [Hlen Hw Hf He Hrep] Hin Hm Hne.
  destruct (letters_token _ face modifier letters_regularMoves Hin Hm) as [Hword Hface].
  assert (Hmap : map faceOf (push (scramble st) (face ++ modifier))
                 = (map faceOf (scramble st) ++ [face])%list).
  { unfold push. rewrite map_app. simpl. rewrite Hface. reflexivity. }
  constructor; simpl.
  - rewrite length_push. lia.
  - apply Forall_push; assumption.
  - rewrite Hmap. apply Forall_app.
    split; [exact Hf | constructor; [exact Hin | constructor]].
  - rewrite Hmap. eapply ends_snoc. exact He.
  - rewrite Hmap. apply apart_snoc; [lia | exact Hrep |].
    intros a _ Ha. rewrite (ends_last _ _ _ _ He Ha). congruence.
Qed.

Lemma relax_candidates (moves : list string) (st : tracking) (availableMoves : list string)
    (move : string) :
  (forall x, In x availableMoves -> In x moves /\ x <> lastMove st) ->
  In move (relax moves st availableMoves) ->
  In move moves /\ move <> lastMove st.
Proof.
  intros Hav. unfold relax. destruct (List.length availableMoves =? 0)%nat.
  - intros H. apply filter_In in H. destruct H as [Hin Hneq]. split; [exact Hin |].
    apply negb_true_iff, String.eqb_neq in Hneq. exact Hneq.
  - apply Hav.
Qed.

(** A pass of the base loop pushes one or two moves, none repeating the
    face before it, and stays within the move count. *)
Lemma bodyPyraminx_inv (moveCount i : nat) (st : tracking) :
  i < moveCount -> pyraminx_inv i st ->
  total (bodyPyraminx moveCount i st)
        (fun r => pyraminx_inv (S (snd r)) (fst r) /\ i <= snd r < moveCount).
Proof.
  intros Hi Hinv. unfold bodyPyraminx.
  eapply total_bind with
    (P := fun r => match r with
                   | Some r => pyraminx_inv (S (snd r)) (fst r) /\ i <= snd r < moveCount
                   | None => True
                   end).
  - destruct (i mod 3 =? 0)%nat; simpl andb; [| apply total_ret; exact I].
    destruct (Nat.ltb_spec (i + 1) moveCount) as [Hroom | _]; [| apply total_ret; exact I].
    eapply total_bind; [apply total_getRandomElement; discriminate | intros pattern Hp].
    destruct st as [scr lm sl].
    each_member Hp; cbn [nth_error lastMove];
      (match goal with
       | |- context [(?a =? lm)] => destruct (String.eqb_spec a lm) as [E | E]
       end; cbn [negb]; [apply total_ret; exact I |]);
      cbn [scramble];
      (eapply total_bind;
       [apply total_push_pair | intros scr2 (m1 & m2 & -> & Hm1 & Hm2)]);
      apply total_ret; cbn [fst snd List.length Nat.sub nth];
      (split; [| lia]);
      replace (S (i + 1)) with (S (S i)) by lia;
      match goal with
      | |- pyraminx_inv _ (mkTracking (push (push _ (?a ++ _)) (?b ++ _)) _ _) =>
          apply (pyraminx_inv_push (S i) (push_move (mkTracking scr lm sl) (a ++ m1) a) b m2);
          [ apply (pyraminx_inv_push i (mkTracking scr lm sl) a m1);
            [exact Hinv | simpl; auto | apply modifier_spaceless2; exact Hm1 | exact E]
          | simpl; auto
          | apply modifier_spaceless2; exact Hm2
          | discriminate ]
      end.
  - intros [r |] Hr; [apply total_ret; exact Hr |].
    eapply total_bind;
      [apply total_getRandomElement; apply relax_nonempty; discriminate | intros move Hmove].
    eapply total_bind; [apply total_random | intros r _].
    apply total_ret. cbn [fst snd]. split; [| lia].
    apply relax_candidates in Hmove.
    + destruct Hmove as [Hin Hne].
      apply pyraminx_inv_push; [exact Hinv | exact Hin | | exact Hne].
      destruct (Qlt_bool r (6 # 10)); reflexivity.
    + intros x Hx.
      assert (Hx0 : In x (filter (fun move0 => negb (move0 =? lastMove st)) regularMoves)).
      { destruct (truthy (secondLastMove st) && truthy (lastMove st) && _);
          [apply filter_In in Hx; destruct Hx as [Hx _]; exact Hx | exact Hx]. }
      apply filter_In in Hx0. destruct Hx0 as [Hin Hneq]. split; [exact Hin |].
      apply negb_true_iff, String.eqb_neq in Hneq. exact Hneq.
Qed.

Lemma loopPyraminx_inv (gas moveCount : nat) :
  forall i st, moveCount <= i + gas -> i <= moveCount -> pyraminx_inv i st ->
               total (loopPyraminx gas moveCount i st) (pyraminx_inv moveCount).
Proof.
  induction gas as [| gas IH]; intros i st Hgas Hle Hinv; simpl.
  - destruct (Nat.ltb_spec i moveCount); [lia |].
    apply total_ret. replace moveCount with i by lia. exact Hinv.
  - destruct (Nat.ltb_spec i moveCount) as [Hlt | Hge].
    + eapply total_bind; [apply bodyPyraminx_inv; [exact Hlt | exact Hinv] |].
      intros r [Hr Hbound]. apply IH; [lia | lia | exact Hr].
    + apply total_ret. replace moveCount with i by lia. exact Hinv.
Qed.

Lemma total_basePyraminx :
  total basePyraminx (fun st => exists n, 8 <= n <= 10 /\ pyraminx_inv n st).
Proof.
  unfold basePyraminx.
  eapply total_bind; [apply (total_getRandomInt 8 10); lia | intros moveCount Hc].
  cbv beta in Hc.
  eapply total_weaken.
  - apply loopPyraminx_inv; [lia | lia |].
    constructor; simpl; try constructor; intros i a b H; destruct i; discriminate.
  - intros st Hst. exists (Z.to_nat moveCount). split; [lia | exact Hst].
Qed.

(** On every stream the base portion of a Pyraminx scramble has eight to ten
    moves over R, L, U, B, and no move turns the face of the move before it:
    the half of C4 that the code keeps. *)
Lemma pyraminx_base_never_repeats (s : stream) (p : nat) :
  exists st next,
    basePyraminx s p = Done st next
    /\ 8 <= List.length (scramble st) <= 10
    /\ Forall (fun f => In f regularMoves) (map faceOf (scramble st))
    /\ (forall i a b, nth_error (map faceOf (scramble st)) i = Some a ->
                      nth_error (map faceOf (scramble st)) (i + 1) = Some b ->
                      a <> b).
Proof.
  destruct (total_basePyraminx s p) as (st & next & E & n & Hn & Hinv).
  exists st, next. split; [exact E |].
  split; [rewrite (pyr_length _ _ Hinv); exact Hn |].
  split; [exact (pyr_faces _ _ Hinv) | exact (pyr_repeat _ _ Hinv)].
Qed.

(* ================================================================= *)
(** ** Pyraminx: a pattern can reopen a cancellation *)

(** C4 (the code misses it).  The single-move branch drops the move before
    the last when the two are axis-opposites; the pattern branch checks only
    that the pattern does not start with the last move.  On [cancelling] the
    base moves end with R' L' followed by the pattern R L: token 6 turns R
    again, the face of token 4, across its axis-opposite L.  No tip is added,
    so the eight tokens are the base portion. *)
Theorem pyraminx_pattern_reopens_cancellation :
  exists out next st next',
    generateScramble "Pyraminx" cancelling 0 = Done out next
    /\ basePyraminx cancelling 0 = Done st next'
    /\ tokens out = scramble st
    /\ tokens out = ["R"; "L"; "U'"; "B'"; "R'"; "L'"; "R"; "L"]
    /\ nth_error (map faceOf (tokens out)) 4 = Some "R"
    /\ nth_error (map faceOf (tokens out)) 5 = Some "L"
    /\ lookup "L" antiRotation = Some "R"
    /\ nth_error (map faceOf (tokens out)) 6 = Some "R".
Proof.
  eexists _, _, _, _.
  split; [vm_compute; reflexivity |].
  split; [vm_compute; reflexivity |].
  repeat split; vm_compute; reflexivity.
Qed.

(* ================================================================= *)
(** ** Custom generators: retry loops, counts and alphabets *)



(** With every draw [0] the retry loop of the custom 2x2 generator draws R
    for ever once R is the last face. *)
Lemma sampleFace_stuck_on_zeros (fuel p : nat) :
  sampleFace fuel moves2x2 (fun face => face =? "R") zeros p = Fail OutOfFuel.
Proof.
  revert p. induction fuel as [| fuel IH]; intros p; simpl; [reflexivity |].
  unfold bind.
  change (getRandomElement moves2x2 zeros p) with (Done "R" (S p)).
  simpl. apply IH.
Qed.

Lemma custom2x2_stuck_on_zeros (fuel : nat) :
  generateCustomScramble fuel "2x2" (Some 5%Z) (Some "easy") zeros 0 = Fail OutOfFuel.
Proof.
  change (generateCustomScramble fuel "2x2" (Some 5%Z) (Some "easy"))
    with (generateCustom2x2Scramble fuel (Some 5%Z) (Some "easy")).
  destruct fuel as [| fuel]; [reflexivity |].
  unfold generateCustom2x2Scramble.
  change (Z.to_nat (adjustMoves (defaulting (Some 5%Z) 10%Z) (defaulting (Some "easy") "medium")))
    with 5.
  change (modifiers2x2For (defaulting (Some "easy") "medium")) with [""; "'"].
  assert (E1 : bodyCustom2x2 (S fuel) [""; "'"] 0 ([], "") zeros 0 = Done (["R"], "R") 2)
    by reflexivity.
  assert (E2 : bodyCustom2x2 (S fuel) [""; "'"] 1 (["R"], "R") zeros 2 = Fail OutOfFuel).
  { unfold bodyCustom2x2, bind. cbn [snd]. rewrite sampleFace_stuck_on_zeros. reflexivity. }
  cbn [for_loop]. unfold bind at 1 2 3. rewrite E1, E2. reflexivity.
Qed.

(** C3, as the specification states it, fails: easy caps the count at 8 and
    leaves a smaller count alone.  On [sixteenths] the call returns five
    tokens.  (And not every stream lets the call return: on [zeros] no budget
    is enough.) *)
Lemma custom2x2_easy_five_is_not_eight :
  (exists out next,
      generateCustomScramble 20 "2x2" (Some 5%Z) (Some "easy") sixteenths 0 = Done out next
      /\ out = "R U F' R U"
      /\ List.length (tokens out) = 5
      /\ List.length (tokens out) <> 8)
  /\ (forall fuel,
        generateCustomScramble fuel "2x2" (Some 5%Z) (Some "easy") zeros 0 = Fail OutOfFuel).
Proof.
  split; [| exact custom2x2_stuck_on_zeros].
  eexists _, _. split; [vm_compute; reflexivity |].
  split; [reflexivity |].
  split; [vm_compute; reflexivity | vm_compute; discriminate].
Qed.

(** C3, amended.  [generateCustomScramble("2x2", 5, "easy")] settles on
    min(5, 8) = 5 moves.  Whenever it returns, on any stream, the string has
    exactly five tokens; and it does return, with budget enough, on every
    stream that keeps offering each of the three faces. *)
Theorem custom2x2_easy_keeps_five (s : stream) :
  recurrent 3 s ->
  (forall fuel s' p out next,
      generateCustomScramble fuel "2x2" (Some 5%Z) (Some "easy") s' p = Done out next ->
      List.length (tokens out) = 5)
  /\ (exists fuel, forall fuel', fuel <= fuel' ->
        exists out next,
          generateCustomScramble fuel' "2x2" (Some 5%Z) (Some "easy") s 0 = Done out next
          /\ List.length (tokens out) = 5).
Proof.
  intros Hrec. split.
  - intros fuel s' p out next E.
    change (generateCustomScramble fuel "2x2" (Some 5%Z) (Some "easy"))
      with (generateCustom2x2Scramble fuel (Some 5%Z) (Some "easy")) in E.
    destruct (partial_generateCustom2x2_count "easy" fuel (Some 5%Z) s' p)
      as [(a & n & E' & Hlen & _) | E']; rewrite E in E'; [| discriminate].
    injection E' as <- <-. exact Hlen.
  - destruct (eventually_settles _ s _ 0
                (monotone_generateCustom2x2 "easy" (Some 5%Z))
                (eventually_generateCustom2x2 "easy" s (Some 5%Z) Hrec))
      as (fuel & Hfuel).
    exists fuel. intros fuel' Hle.
    destruct (Hfuel fuel' Hle) as (out & next & E & Hlen & _).
    exists out, next. split; [exact E | exact Hlen].
Qed.

Lemma custom2x2_easy_keeps_five_witness :
  (forall fuel s' p out next,
      generateCustomScramble fuel "2x2" (Some 5%Z) (Some "easy") s' p = Done out next ->
      List.length (tokens out) = 5)
  /\ (exists fuel, forall fuel', fuel <= fuel' ->
        exists out next,
          generateCustomScramble fuel' "2x2" (Some 5%Z) (Some "easy") sixteenths 0
          = Done out next
          /\ List.length (tokens out) = 5).
Proof.
  apply (custom2x2_easy_keeps_five sixteenths).
  apply (sixteenths_recurrent 3). simpl. auto.
Defined.

(* ================================================================= *)
(** ** Dispatch: unknown types, zero and negative counts *)






Example labels_spelled :
  labels = ["2x2"; "3x3"; "3x3 BLD"; "3x3 OH"; "Pyraminx"; "Skewb"; "Clock"].
Proof. reflexivity. Qed.



Example unknown_type_twelve_hard :
  result (generateCustomScramble 3 "unknown-type" (Some 12%Z) (Some "hard") sixteenths 0)
  = Some "R U' Fw Mw' Ew2 S R U' Fw Mw' Ew2 S".
Proof. vm_compute. reflexivity. Qed.

(** C10, amended.  [generateCustomScramble] reads a move count of 0 as a
    count left out: for ["3x3"] it runs the custom 3x3 generator with 20
    moves, so every string it returns has twenty tokens, and it returns on
    every stream that keeps offering each face of the alphabet (not on every
    stream: with the same number at every draw it never returns); for
    ["2x2"] it does what it does for 10.  A negative count goes through
    unchanged: the custom 3x3 loop makes no pass, no draw is read, and the
    empty string comes back. *)
Theorem zero_count_is_absent_negative_is_empty :
  (forall fuel difficulty,
      generateCustomScramble fuel "3x3" (Some 0%Z) difficulty
      = generateCustomScramble fuel "3x3" None difficulty
      /\ generateCustomScramble fuel "3x3" (Some 0%Z) difficulty
         = generateCustom3x3Scramble fuel (Some 20%Z) (Some (defaulting difficulty "medium")))
  /\ (forall fuel difficulty s p out next,
         generateCustomScramble fuel "3x3" (Some 0%Z) difficulty s p = Done out next ->
         List.length (tokens out) = 20)
  /\ (forall difficulty s,
         recurrent (List.length (facesFor (defaulting difficulty "medium"))) s ->
         exists fuel, forall fuel', fuel <= fuel' ->
           exists out next,
             generateCustomScramble fuel' "3x3" (Some 0%Z) difficulty s 0 = Done out next
             /\ List.length (tokens out) = 20)
  /\ (forall fuel difficulty,
         generateCustomScramble fuel "2x2" (Some 0%Z) difficulty
         = generateCustomScramble fuel "2x2" (Some 10%Z) difficulty
         /\ generateCustomScramble fuel "2x2" (Some 0%Z) difficulty
            = generateCustom2x2Scramble fuel (Some 10%Z) (Some (defaulting difficulty "medium")))
  /\ (forall fuel m difficulty s p, (m < 0)%Z ->
         generateCustomScramble fuel "3x3" (Some m) difficulty
         = generateCustom3x3Scramble fuel (Some m) (Some (defaulting difficulty "medium"))
         /\ generateCustomScramble fuel "3x3" (Some m) difficulty s p = Done "" p).
Proof.
  split; [intros fuel difficulty; split; reflexivity |].
  split.
  { intros fuel difficulty s p out next E.
    change (generateCustomScramble fuel "3x3" (Some 0%Z) difficulty)
      with (generateCustom3x3Scramble fuel (Some 20%Z) (Some (defaulting difficulty "medium")))
      in E.
    destruct (partial_generateCustom3x3_count (defaulting difficulty "medium") fuel
                (Some 20%Z) s p) as [(a & n & E' & Hlen & _) | E'];
      rewrite E in E'; [| discriminate].
    injection E' as <- <-. exact Hlen. }
  split.
  { intros difficulty s Hrec.
    destruct (eventually_settles _ s _ 0
                (monotone_generateCustom3x3 (defaulting difficulty "medium") (Some 20%Z))
                (eventually_generateCustom3x3 (defaulting difficulty "medium") s
                   (Some 20%Z) Hrec))
      as (fuel & Hfuel).
    exists fuel. intros fuel' Hle.
    destruct (Hfuel fuel' Hle) as (out & next & E & Hlen & _).
    exists out, next. split; [exact E | exact Hlen]. }
  split; [intros fuel difficulty; split; reflexivity |].
  intros fuel m difficulty s p Hm.
  assert (E : generateCustomScramble fuel "3x3" (Some m) difficulty
              = generateCustom3x3Scramble fuel (Some m) (Some (defaulting difficulty "medium"))).
  { unfold generateCustomScramble. simpl. destruct (Z.eqb_spec m 0); [lia | reflexivity]. }
  split; [exact E |].
  rewrite E. unfold generateCustom3x3Scramble. simpl defaulting.
  destruct m as [| m | m]; try lia. reflexivity.
Qed.

Lemma zero_count_is_absent_negative_is_empty_witness :
  (exists fuel, forall fuel', fuel <= fuel' ->
      exists out next,
        generateCustomScramble fuel' "3x3" (Some 0%Z) (Some "medium") sixteenths 0
        = Done out next
        /\ List.length (tokens out) = 20)
  /\ generateCustomScramble 0 "3x3" (Some (-3)%Z) (Some "hard") sixteenths 0 = Done "" 0.
Proof.
  destruct zero_count_is_absent_negative_is_empty as (_ & _ & Hzero & _ & Hneg).
  split.
  - apply (Hzero (Some "medium") sixteenths).
    apply (sixteenths_recurrent 6). simpl. auto.
  - apply (Hneg 0 (-3)%Z (Some "hard") sixteenths 0). lia.
Defined.

(* ================================================================= *)
(** ** The random primitives: range and reach *)

Lemma unit_interval_small (q : Q) :
  (0 <= q)%Q -> (q < 1)%Q -> (unit_interval q == q)%Q.
Proof.
  intros H0 H1. unfold unit_interval.
  assert (E : Qfloor q = 0%Z).
  { pose proof (Qfloor_le q) as Hle. pose proof (Qlt_floor q) as Hlt.
    assert (Hlo : (0 <= Qfloor q)%Z).
    { change 0%Z with (Qfloor 0). apply Qfloor_resp_le. exact H0. }
    assert (Hhi : (Qfloor q < 1)%Z).
    { rewrite Zlt_Qlt. eapply Qle_lt_trans; [exact Hle | exact H1]. }
    lia. }
  rewrite E. ring.
Qed.

(** The draw [k / n] selects index [k] of [n]. *)
Lemma floor_scaled_fraction (k n : Z) :
  (0 <= k < n)%Z ->
  floor_scaled (unit_interval (k # Z.to_pos n)) n = k.
Proof.
  intros Hk. unfold floor_scaled.
  assert (Hq0 : (0 <= k # Z.to_pos n)%Q) by (unfold Qle; simpl; lia).
  assert (Hq1 : (k # Z.to_pos n < 1)%Q).
  { unfold Qlt. simpl. pose proof (Z2Pos.id n). lia. }
  assert (E : ((unit_interval (k # Z.to_pos n)) * inject_Z n == inject_Z k)%Q).
  { rewrite (unit_interval_small _ Hq0 Hq1).
    unfold Qeq, inject_Z. simpl. pose proof (Z2Pos.id n). nia. }
  rewrite (Qfloor_comp _ _ E). apply Qfloor_Z.
Qed.

(** X1.  With [min <= max], both in the range of 32-bit integers (where
    the double additions of the source are exact), [getRandomInt(min, max)]
    reads one draw and returns an integer between [min] and [max], both
    included; and each integer of that range is what it returns for some
    draw. *)
Theorem getRandomInt_range_and_reach (min max : Z) :
  (-2147483648 <= min)%Z -> (min <= max)%Z -> (max <= 2147483647)%Z ->
  (forall s p, exists v,
      getRandomInt min max s p = Done v (S p) /\ (min <= v <= max)%Z)
  /\ (forall v, (min <= v <= max)%Z ->
        exists q, forall s p, s p = q -> getRandomInt min max s p = Done v (S p)).
Proof.
  intros _ Hle _. split.
  - intros s p. apply getRandomInt_Done. exact Hle.
  - intros v Hv. exists ((v - min) # Z.to_pos (max - min + 1))%Q.
    intros s p E. unfold getRandomInt, bind, Math_random, ret. rewrite E.
    rewrite floor_scaled_fraction by lia. f_equal. lia.
Qed.

Lemma getRandomInt_range_and_reach_witness :
  (forall s p, exists v,
      getRandomInt 8 10 s p = Done v (S p) /\ (8 <= v <= 10)%Z)
  /\ (forall v, (8 <= v <= 10)%Z ->
        exists q, forall s p, s p = q -> getRandomInt 8 10 s p = Done v (S p)).
Proof. apply (getRandomInt_range_and_reach 8 10); lia. Defined.

(** X2.  On a non-empty array [getRandomElement] reads one draw and returns
    an entry of the array, and each entry is what it returns for some draw;
    on the empty array it has nothing to return. *)
Theorem getRandomElement_member_and_reach {T} (array : list T) :
  array <> [] ->
  (forall s p, exists x, getRandomElement array s p = Done x (S p) /\ In x array)
  /\ (forall i x, nth_error array i = Some x ->
        exists q, forall s p, s p = q -> getRandomElement array s p = Done x (S p))
  /\ (forall s p, getRandomElement (@nil T) s p = Fail EmptyPick).
Proof.
  intros Hne. split; [intros s p; apply getRandomElement_Done; exact Hne |].
  split.
  - intros i x Hi.
    assert (Hlt : i < List.length array) by (apply nth_error_Some; congruence).
    exists (Z.of_nat i # Z.to_pos (Z.of_nat (List.length array)))%Q.
    intros s p E. rewrite getRandomElement_pick. unfold pick. rewrite E.
    rewrite floor_scaled_fraction by lia. rewrite Nat2Z.id, Hi. reflexivity.
  - intros s p. apply getRandomElement_empty_iff. reflexivity.
Qed.

Lemma getRandomElement_member_and_reach_witness :
  (forall s p, exists x,
      getRandomElement moves2x2 s p = Done x (S p) /\ In x moves2x2)
  /\ (forall i x, nth_error moves2x2 i = Some x ->
        exists q, forall s p, s p = q -> getRandomElement moves2x2 s p = Done x (S p))
  /\ (forall s p, getRandomElement (@nil string) s p = Fail EmptyPick).
Proof. apply (getRandomElement_member_and_reach moves2x2). discriminate. Defined.

(* ================================================================= *)
(** ** shuffleArray returns a permutation *)

Lemma length_set_at {T} (n : nat) (x : T) (l : list T) :
  List.length (set_at n x l) = List.length l.
Proof.
  revert n. induction l as [| y l IH]; intros [| n]; simpl; auto.
Qed.

Lemma nth_error_set_at {T} (n m : nat) (x : T) (l : list T) :
  n < List.length l ->
  nth_error (set_at n x l) m = if (m =? n)%nat then Some x else nth_error l m.
Proof.
  revert n m. induction l as [| y l IH]; intros n m Hn; simpl in Hn; [lia |].
  destruct n as [| n], m as [| m]; simpl; try reflexivity.
  apply IH. lia.
Qed.

Lemma transpose_involutive (i j n : nat) : transpose i j (transpose i j n) = n.
Proof.
  unfold transpose.
  destruct (Nat.eqb_spec n i); destruct (Nat.eqb_spec n j);
    repeat match goal with
           | |- context [(?a =? ?b)%nat] => destruct (Nat.eqb_spec a b)
           end; lia.
Qed.

Lemma swap_nth_error {T} (i j : nat) (l : list T) (n : nat) :
  i < List.length l -> j < List.length l ->
  nth_error (swap i j l) n = nth_error l (transpose i j n).
Proof.
  intros Hi Hj. unfold swap.
  destruct (nth_error l i) as [a |] eqn:Ei; [| apply nth_error_None in Ei; lia].
  destruct (nth_error l j) as [b |] eqn:Ej; [| apply nth_error_None in Ej; lia].
  rewrite nth_error_set_at by (rewrite length_set_at; exact Hj).
  rewrite nth_error_set_at by exact Hi.
  unfold transpose.
  destruct (Nat.eqb_spec n j) as [Enj | Hnj]; destruct (Nat.eqb_spec n i) as [Eni | Hni];
    subst; congruence.
Qed.

Lemma swap_Permutation {T} (i j : nat) (l : list T) : Permutation l (swap i j l).
Proof.
  destruct (Nat.lt_ge_cases i (List.length l)) as [Hi | Hi];
    [| unfold swap; apply nth_error_None in Hi; rewrite Hi; reflexivity].
  destruct (Nat.lt_ge_cases j (List.length l)) as [Hj | Hj].
  - apply Permutation_nth_error. split.
    + unfold swap.
      destruct (nth_error l i); [| reflexivity].
      destruct (nth_error l j); [| reflexivity].
      rewrite !length_set_at. reflexivity.
    + exists (transpose i j). split.
      * intros a b E. rewrite <- (transpose_involutive i j a), E.
        apply transpose_involutive.
      * intros n. apply swap_nth_error; assumption.
  - unfold swap. apply nth_error_None in Hj. rewrite Hj.
    destruct (nth_error l i); reflexivity.
Qed.

Lemma shuffle_from_Permutation {T} (i : nat) :
  forall (l : list T) (s : stream) (p : nat),
  exists out, shuffle_from i l s p = Done out (p + i) /\ Permutation l out.
Proof.
  induction i as [| i IH]; intros l s p; cbn [shuffle_from].
  - exists l. rewrite Nat.add_0_r. split; reflexivity.
  - unfold bind, Math_random. cbv zeta.
    match goal with
    | |- context [shuffle_from i ?l' s (S p)] =>
        destruct (IH l' s (S p)) as (out & E & Hperm)
    end.
    exists out. rewrite E. split; [f_equal; lia |].
    eapply Permutation_trans; [apply swap_Permutation | exact Hperm].
Qed.

(** X3.  [shuffleArray] returns, for every array and every stream, a
    permutation of the array (so an array of the same length with the same
    entries, each as often as before), after reading one draw for each
    position but the first.  An array of at most one entry comes back as it
    is, with no draw read. *)
Theorem shuffleArray_permutes {T} (array : list T) (s : stream) (p : nat) :
  (exists out,
      shuffleArray array s p = Done out (p + (List.length array - 1))
      /\ Permutation array out
      /\ List.length out = List.length array)
  /\ (List.length array <= 1 -> shuffleArray array s p = Done array p).
Proof.
  unfold shuffleArray. split.
  - destruct (shuffle_from_Permutation (List.length array - 1) array s p)
      as (out & E & Hperm).
    exists out. split; [exact E |]. split; [exact Hperm |].
    symmetry. apply Permutation_length. exact Hperm.
  - intros Hshort. replace (List.length array - 1) with 0 by lia. reflexivity.
Qed.

Example shuffleArray_sixteenths :
  result (shuffleArray ["a"; "b"; "c"; "d"] sixteenths 0) = Some ["b"; "c"; "d"; "a"].
Proof. vm_compute. reflexivity. Qed.

(* ================================================================= *)
(** ** 3x3 and 2x2: the grammar of the tokens *)

Lemma total_both {A} (m : Gen A) (P Q : A -> Prop) :
  total m P -> total m Q -> total m (fun a => P a /\ Q a).
Proof.
  intros HP HQ s p.
  destruct (HP s p) as (a & next & E & Ha). destruct (HQ s p) as (b & next' & E' & Hb).
  rewrite E in E'. injection E' as <- <-. exists a, next. auto.
Qed.

Lemma over_push (moves modifiers scr : list string) (f m : string) :
  Forall (over moves modifiers) scr -> In f moves -> In m modifiers ->
  Forall (over moves modifiers) (push scr (f ++ m)).
Proof.
  intros Hs Hf Hm. apply Forall_push; [exact Hs |]. exists f, m. auto.
Qed.

Lemma biased_in_modifiers3 (m : string) : In m ["2"; "'"; ""] -> In m modifiers3.
Proof. intros H. each_member H; simpl; auto. Qed.

Lemma body3x3_over (i : nat) (st : tracking) :
  reachable_ends moves3x3 st ->
  Forall (over moves3x3 modifiers3) (scramble st) ->
  total (body3x3 i st) (fun st' => Forall (over moves3x3 modifiers3) (scramble st')).
Proof.
  intros Hreach Hover. unfold body3x3.
  eapply total_bind; [apply total_axis_filter3x3; exact Hreach | intros av ->].
  destruct st as [scr lm sl].
  destruct (candidates3x3_ok scr lm sl Hreach) as [Hne Hok].
  set (availableMoves := relax moves3x3 _ _) in *.
  eapply total_bind.
  { instantiate (1 := fun r => match r with
                               | Some st' => Forall (over moves3x3 modifiers3) (scramble st')
                               | None => True
                               end).
    destruct ((0 <? i)%nat && (i mod 5 =? 0)%nat && truthy _).
    - eapply total_weaken; [apply total_biased_move |].
      intros [st' |] H; [| exact I]. destruct H as (f & m & Hf & Hm & ->).
      apply over_push; [exact Hover | apply (Hok f Hf) | apply biased_in_modifiers3, Hm].
    - apply total_ret. exact I. }
  intros [st' |] H; [apply total_ret; exact H |].
  eapply total_bind; [apply total_getRandomElement; exact Hne | intros face Hface].
  eapply total_bind; [apply total_random | intros r _].
  apply total_ret. apply over_push; [exact Hover | apply (Hok face Hface) |].
  destruct (Qlt_bool r (33 # 100)); [simpl; auto |].
  destruct (Qlt_bool r (66 # 100)); simpl; auto.
Qed.

Lemma body2x2_over (i : nat) (st : tracking) :
  reachable_ends moves2x2 st ->
  Forall (over moves2x2 modifiers3) (scramble st) ->
  total (body2x2 i st) (fun st' => Forall (over moves2x2 modifiers3) (scramble st')).
Proof.
  intros Hreach Hover. unfold body2x2. destruct st as [scr lm sl].
  destruct (candidates2x2_ok scr lm sl Hreach) as [Hne Hok].
  set (availableMoves := relax moves2x2 _ _) in *.
  eapply total_bind.
  { instantiate (1 := fun r => match r with
                               | Some st' => Forall (over moves2x2 modifiers3) (scramble st')
                               | None => True
                               end).
    destruct ((0 <? i)%nat && (i mod 3 =? 0)%nat && truthy _).
    - eapply total_weaken; [apply total_biased_move |].
      intros [st' |] H; [| exact I]. destruct H as (f & m & Hf & Hm & ->).
      apply over_push; [exact Hover | apply (Hok f Hf) | apply biased_in_modifiers3, Hm].
    - apply total_ret. exact I. }
  intros [st' |] H; [apply total_ret; exact H |].
  eapply total_bind; [apply total_getRandomElement; exact Hne | intros face Hface].
  eapply total_bind; [apply total_random | intros r _].
  apply total_ret. apply over_push; [exact Hover | apply (Hok face Hface) |].
  destruct (Qlt_bool r (3 # 10)); [simpl; auto |].
  destruct (Qlt_bool r (65 # 100)); simpl; auto.
Qed.

(** X4.  Every token of a 3x3 scramble (so of a 3x3 BLD and a 3x3 OH
    scramble) is one of the six face letters followed by nothing, by ['] or
    by [2]: no wide move, no slice, no rotation, on any stream. *)
Theorem generate3x3_token_grammar (s : stream) (p : nat) :
  exists out next,
    generateScramble "3x3" s p = Done out next
    /\ generateScramble "3x3 BLD" s p = Done out next
    /\ generateScramble "3x3 OH" s p = Done out next
    /\ Forall (over moves3x3 modifiers3) (tokens out)
    /\ Forall (fun t => 1 <= String.length t <= 2) (tokens out).
Proof.
  assert (H : total generate3x3Scramble
                (fun out => Forall (over moves3x3 modifiers3) (tokens out))).
  { unfold generate3x3Scramble.
    eapply total_bind.
    - apply (total_for_loop
               (fun i st => cube_inv moves3x3 i st
                            /\ Forall (over moves3x3 modifiers3) (scramble st))
               body3x3) with (n := 20) (i := 0).
      + intros i st [Hinv Hover]. apply total_both; [apply body3x3_inv; exact Hinv |].
        apply body3x3_over; [eapply cube_inv_reachable; exact Hinv | exact Hover].
      + split; [apply cube_inv_start | constructor].
    - intros st [Hinv Hover]. apply total_ret.
      rewrite (tokens_join _ (inv_words _ _ _ Hinv)). exact Hover. }
  destruct (H s p) as (out & next & E & Hover).
  exists out, next. repeat split; try exact E; try exact Hover.
  eapply Forall_impl; [| exact Hover].
  intros t (f & m & -> & Hf & Hm). each_member Hf; each_member Hm; simpl; lia.
Qed.

(** X5.  Every token of a 2x2 scramble is R, U or F followed by nothing, by
    ['] or by [2], on any stream. *)
Theorem generate2x2_token_grammar (s : stream) (p : nat) :
  exists out next,
    generateScramble "2x2" s p = Done out next
    /\ Forall (over moves2x2 modifiers3) (tokens out)
    /\ Forall (fun t => 1 <= String.length t <= 2) (tokens out).
Proof.
  assert (H : total generate2x2Scramble
                (fun out => Forall (over moves2x2 modifiers3) (tokens out))).
  { unfold generate2x2Scramble.
    eapply total_bind; [apply (total_getRandomInt 9 11); lia | intros moveCount _].
    eapply total_bind.
    - apply (total_for_loop
               (fun i st => cube_inv moves2x2 i st
                            /\ Forall (over moves2x2 modifiers3) (scramble st))
               body2x2) with (n := Z.to_nat moveCount) (i := 0).
      + intros i st [Hinv Hover]. apply total_both; [apply body2x2_inv; exact Hinv |].
        apply body2x2_over; [eapply cube_inv_reachable; exact Hinv | exact Hover].
      + split; [apply cube_inv_start | constructor].
    - intros st [Hinv Hover]. apply total_ret.
      rewrite (tokens_join _ (inv_words _ _ _ Hinv)). exact Hover. }
  change (generateScramble "2x2") with generate2x2Scramble.
  destruct (H s p) as (out & next & E & Hover).
  exists out, next. repeat split; try exact E; try exact Hover.
  eapply Forall_impl; [| exact Hover].
  intros t (f & m & -> & Hf & Hm). each_member Hf; each_member Hm; simpl; lia.
Qed.

(* ================================================================= *)
(** ** Skewb: nine corner turns, none repeated at once *)

Lemma chain_inv_start (moves modifiers : list string) :
  chain_inv moves modifiers 0 (mkTracking [] "" "").
Proof.
  constructor; simpl; try constructor.
  intros i a b H. destruct i; discriminate.
Qed.

Lemma chain_inv_push (moves modifiers : list string) (i : nat) (st : tracking)
    (face modifier : string) :
  letters moves -> spaceless modifiers ->
  chain_inv moves modifiers i st ->
  In face moves -> In modifier modifiers -> face <> lastMove st ->
  chain_inv moves modifiers (S i) (push_move st (face ++ modifier) face).
Proof.
  intros Hl Hs [Hlen Hw Ho He Hrep] Hin Hm Hne.
  destruct (letters_token _ face modifier Hl Hin (Hs _ Hm)) as [Hword Hface].
  assert (Hmap : map faceOf (push (scramble st) (face ++ modifier))
                 = (map faceOf (scramble st) ++ [face])%list).
  { unfold push. rewrite map_app. simpl. rewrite Hface. reflexivity. }
  constructor; simpl.
  - rewrite length_push. lia.
  - apply Forall_push; assumption.
  - apply over_push; assumption.
  - rewrite Hmap. eapply ends_snoc. exact He.
  - rewrite Hmap. apply apart_snoc; [lia | exact Hrep |].
    intros a _ Ha. rewrite (ends_last _ _ _ _ He Ha). congruence.
Qed.

Lemma letters_corners : letters corners.
Proof. intros f H. each_member H; eexists; split; reflexivity. Qed.

Lemma spaceless_modifiers2 : spaceless modifiers2.
Proof. intros m H. each_member H; reflexivity. Qed.

(** The corners listed as adjacent to a corner are corners other than it. *)
Lemma adjacent_is_other (corner other : string) (neighbours : list string) :
  lookup corner adjacentCorners = Some neighbours -> In other neighbours ->
  In other corners /\ other <> corner.
Proof.
  intros E Hin. apply lookup_In in E. simpl in E.
  repeat (destruct E as [E | E];
          [injection E as <- <-; each_member Hin; (split; [simpl; auto 10 | discriminate]) |]).
  contradiction.
Qed.

Lemma inverse_or_plain (b : bool) : In (if b then "'" else "") modifiers2.
Proof. destruct b; simpl; auto. Qed.

Lemma bodySkewb_inv (i : nat) (st : tracking) :
  chain_inv corners modifiers2 i st ->
  total (bodySkewb i st) (chain_inv corners modifiers2 (S i)).
Proof.
  intros Hinv. unfold bodySkewb.
  assert (Hpush : forall corner (b : bool), In corner corners -> corner <> lastMove st ->
            chain_inv corners modifiers2 (S i)
              (push_move st (corner ++ (if b then "'" else "")) corner)).
  { intros corner b Hc Hne.
    apply chain_inv_push;
      [apply letters_corners | apply spaceless_modifiers2 | exact Hinv | exact Hc
      | apply inverse_or_plain | exact Hne]. }
  eapply total_bind with
    (P := fun r => match r with
                   | Some st' => chain_inv corners modifiers2 (S i) st'
                   | None => True
                   end).
  - destruct (truthy (lastMove st)); [| apply total_ret; exact I].
    destruct (lookup (lastMove st) adjacentCorners) as [neighbours |] eqn:E;
      [| apply total_ret; exact I].
    eapply total_bind; [apply total_random | intros r _].
    destruct (Qlt_bool r (7 # 10)); [| apply total_ret; exact I].
    destruct (filter _ neighbours) as [| c cs] eqn:F; simpl Nat.ltb; cbv iota;
      [apply total_ret; exact I |].
    eapply total_bind; [apply total_getRandomElement; discriminate | intros corner Hc].
    eapply total_bind; [apply total_random | intros r' _].
    apply total_ret. rewrite <- F in Hc. apply filter_In in Hc. destruct Hc as [Hc _].
    destruct (adjacent_is_other _ _ _ E Hc) as [Hin Hne].
    apply Hpush; assumption.
  - intros [st' |] H; [apply total_ret; exact H |].
    eapply total_bind;
      [apply total_getRandomElement; apply filter_other_nonempty; discriminate
      | intros corner Hc].
    eapply total_bind; [apply total_random | intros r _].
    apply total_ret. apply filter_In in Hc. destruct Hc as [Hin Hneq].
    apply negb_true_iff, String.eqb_neq in Hneq.
    apply Hpush; assumption.
Qed.

Lemma total_generateSkewb_chain :
  total generateSkewbScramble
        (fun out => exists st, chain_inv corners modifiers2 9 st
                               /\ tokens out = scramble st).
Proof.
  unfold generateSkewbScramble.
  eapply total_bind.
  - apply (total_for_loop (chain_inv corners modifiers2) bodySkewb bodySkewb_inv 9 0).
    apply chain_inv_start.
  - intros st Hst. apply total_ret. exists st. split; [exact Hst |].
    apply tokens_join. exact (chain_words _ _ _ _ Hst).
Qed.

(** X6.  On every stream a Skewb scramble has exactly nine tokens, each one
    of the corners R, U, L, B followed by nothing or by ['] (never [2]), and
    no token turns the corner of the token before it. *)
Theorem generateSkewb_nine_corner_turns (s : stream) (p : nat) :
  exists out next,
    generateScramble "Skewb" s p = Done out next
    /\ List.length (tokens out) = 9
    /\ Forall (over corners modifiers2) (tokens out)
    /\ (forall i a b, nth_error (map faceOf (tokens out)) i = Some a ->
                      nth_error (map faceOf (tokens out)) (i + 1) = Some b ->
                      a <> b).
Proof.
  pose proof total_generateSkewb_chain as H.
  change (generateScramble "Skewb") with generateSkewbScramble.
  destruct (H s p) as (out & next & E & st & Hinv & Htok).
  exists out, next. rewrite Htok.
  split; [exact E |].
  split; [exact (chain_length _ _ _ _ Hinv) |].
  split; [exact (chain_over _ _ _ _ Hinv) | exact (chain_repeat _ _ _ _ Hinv)].
Qed.

(* ================================================================= *)
(** ** Pyraminx: base moves, then tips *)

Lemma bodyPyraminx_over (moveCount i : nat) (st : tracking) :
  Forall (over regularMoves modifiers2) (scramble st) ->
  total (bodyPyraminx moveCount i st)
        (fun r => Forall (over regularMoves modifiers2) (scramble (fst r))).
Proof.
  intros Hover. unfold bodyPyraminx.
  eapply total_bind with
    (P := fun r => match r with
                   | Some r => Forall (over regularMoves modifiers2) (scramble (fst r))
                   | None => True
                   end).
  - destruct ((i mod 3 =? 0)%nat && (i + 1 <? moveCount)%nat); [| apply total_ret; exact I].
    eapply total_bind; [apply total_getRandomElement; discriminate | intros pattern Hp].
    destruct (negb _); [| apply total_ret; exact I].
    each_member Hp;
      (eapply total_bind;
       [apply total_push_pair | intros scr2 (m1 & m2 & -> & Hm1 & Hm2)]);
      apply total_ret; cbn [fst scramble];
      (apply over_push; [apply over_push; [exact Hover | simpl; auto | exact Hm1]
                        | simpl; auto 10 | exact Hm2]).
  - intros [r |] Hr; [apply total_ret; exact Hr |].
    eapply total_bind;
      [apply total_getRandomElement; apply relax_nonempty; discriminate | intros move Hmove].
    eapply total_bind; [apply total_random | intros r _].
    apply total_ret. cbn [fst push_move scramble].
    apply relax_candidates in Hmove.
    + apply over_push; [exact Hover | apply Hmove | apply inverse_or_plain].
    + intros x Hx.
      assert (Hx0 : In x (filter (fun move0 => negb (move0 =? lastMove st)) regularMoves)).
      { destruct (truthy (secondLastMove st) && truthy (lastMove st) && _);
          [apply filter_In in Hx; destruct Hx as [Hx _]; exact Hx | exact Hx]. }
      apply filter_In in Hx0. destruct Hx0 as [Hin Hneq]. split; [exact Hin |].
      apply negb_true_iff, String.eqb_neq in Hneq. exact Hneq.
Qed.

Lemma loopPyraminx_keeps (Inv : nat -> tracking -> Prop) (moveCount : nat) :
  (forall i st, i < moveCount -> Inv i st ->
                total (bodyPyraminx moveCount i st)
                      (fun r => Inv (S (snd r)) (fst r) /\ i <= snd r < moveCount)) ->
  forall gas i st, moveCount <= i + gas -> i <= moveCount -> Inv i st ->
                   total (loopPyraminx gas moveCount i st) (Inv moveCount).
Proof.
  intros Hbody gas. induction gas as [| gas IH]; intros i st Hgas Hle Hinv; simpl.
  - destruct (Nat.ltb_spec i moveCount); [lia |].
    apply total_ret. replace moveCount with i by lia. exact Hinv.
  - destruct (Nat.ltb_spec i moveCount) as [Hlt | Hge].
    + eapply total_bind; [apply Hbody; [exact Hlt | exact Hinv] |].
      intros r [Hr Hbound]. apply IH; [lia | lia | exact Hr].
    + apply total_ret. replace moveCount with i by lia. exact Hinv.
Qed.

Lemma total_basePyraminx_over :
  total basePyraminx
        (fun st => exists n, 8 <= n <= 10 /\ pyraminx_inv n st
                             /\ Forall (over regularMoves modifiers2) (scramble st)).
Proof.
  unfold basePyraminx.
  eapply total_bind; [apply (total_getRandomInt 8 10); lia | intros moveCount Hc].
  cbv beta in Hc.
  eapply total_weaken.
  - apply (loopPyraminx_keeps
             (fun i st => pyraminx_inv i st
                          /\ Forall (over regularMoves modifiers2) (scramble st))).
    + intros i st Hi [Hinv Hover].
      eapply total_weaken.
      * apply total_both; [apply bodyPyraminx_inv; [exact Hi | exact Hinv] |].
        apply bodyPyraminx_over. exact Hover.
      * intros r [[Hr Hb] Ho]. auto.
    + lia.
    + lia.
    + split; [| constructor].
      constructor; simpl; try constructor; intros i a b H; destruct i; discriminate.
  - intros st Hst. exists (Z.to_nat moveCount). split; [lia | exact Hst].
Qed.

Lemma letters_tipMoves : letters tipMoves.
Proof. intros f H. each_member H; eexists; split; reflexivity. Qed.

Lemma includes_false (array : list string) (x : string) :
  includes array x = false -> ~ In x array.
Proof.
  unfold includes. intros H Hin.
  assert (E : existsb (String.eqb x) array = true).
  { apply existsb_exists. exists x. split; [exact Hin | apply String.eqb_refl]. }
  congruence.
Qed.

(** The tip loop appends at most [n] tips, each a tip letter not used so far
    with a modifier. *)
Lemma total_loopTips_shape (n : nat) :
  forall usedTips scr,
    total (loopTips n usedTips scr)
          (fun out => exists tips,
               out = (scr ++ tips)%list
               /\ List.length tips <= n
               /\ Forall (over tipMoves modifiers2) tips
               /\ Forall (fun t => word t = true) tips
               /\ NoDup (map faceOf tips)
               /\ (forall t, In t (map faceOf tips) -> ~ In t usedTips)).
Proof.
  induction n as [| n IH]; intros usedTips scr; cbn [loopTips].
  - apply total_ret. exists []. rewrite app_nil_r.
    repeat split; try constructor; simpl; try lia; try (intros t []).
  - cbv zeta.
    destruct (filter _ tipMoves) as [| t0 ts] eqn:E; simpl Nat.eqb; cbv iota.
    + apply total_ret. exists []. rewrite app_nil_r.
      repeat split; try constructor; simpl; try lia; try (intros t []).
    + eapply total_bind; [apply total_getRandomElement; discriminate | intros tip Htip].
      eapply total_bind; [apply total_getRandomElement; discriminate | intros m Hm].
      rewrite <- E in Htip. apply filter_In in Htip. destruct Htip as [Hin Hfresh].
      apply negb_true_iff, includes_false in Hfresh.
      destruct (letters_token _ tip m letters_tipMoves Hin (spaceless_modifiers2 _ Hm))
        as [Hword Hface].
      eapply total_weaken; [apply IH |].
      intros out (tips & -> & Hlen & Hover & Hw & Hnd & Hused).
      exists (cons (tip ++ m) tips).
      split; [unfold push; rewrite <- app_assoc; reflexivity |].
      split; [simpl; lia |].
      split; [constructor; [exists tip, m; auto | exact Hover] |].
      split; [constructor; assumption |].
      simpl map. rewrite Hface.
      split.
      * constructor; [| exact Hnd]. intros Hdup. apply (Hused tip Hdup). left. reflexivity.
      * intros t [<- | Ht]; [exact Hfresh |].
        intros Hu. apply (Hused t Ht). right. exact Hu.
Qed.

Lemma total_generatePyraminx_shape :
  total generatePyraminxScramble
        (fun out => exists st tips n,
             tokens out = (scramble st ++ tips)%list
             /\ 8 <= n <= 10 /\ pyraminx_inv n st
             /\ Forall (over regularMoves modifiers2) (scramble st)
             /\ List.length tips <= 2
             /\ Forall (over tipMoves modifiers2) tips
             /\ NoDup (map faceOf tips)).
Proof.
  unfold generatePyraminxScramble.
  eapply total_bind; [apply total_basePyraminx_over | intros st (n & Hn & Hinv & Hover)].
  eapply total_bind; [apply (total_getRandomInt 0 2); lia | intros tipCount Hc].
  cbv beta in Hc.
  eapply total_bind; [apply total_loopTips_shape |].
  intros scr (tips & -> & Hlen & Hto & Hw & Hnd & _).
  apply total_ret. exists st, tips, n.
  split; [apply tokens_join, Forall_app; split;
          [exact (pyr_words _ _ Hinv) | exact Hw] |].
  split; [exact Hn |]. split; [exact Hinv |]. split; [exact Hover |].
  split; [lia |]. split; [exact Hto | exact Hnd].
Qed.

(** X7.  On every stream a Pyraminx scramble is eight to ten base tokens
    followed by at most two tip tokens, so eight to twelve tokens in all.
    A base token is R, L, U or B with nothing or ['] after it, and none
    turns the face of the token before it.  A tip token is r, l, u or b with
    nothing or ['] after it, and no tip letter comes twice. *)
Theorem generatePyraminx_base_then_tips (s : stream) (p : nat) :
  exists out next base tips,
    generateScramble "Pyraminx" s p = Done out next
    /\ tokens out = (base ++ tips)%list
    /\ 8 <= List.length base <= 10
    /\ Forall (over regularMoves modifiers2) base
    /\ (forall i a b, nth_error (map faceOf base) i = Some a ->
                      nth_error (map faceOf base) (i + 1) = Some b ->
                      a <> b)
    /\ List.length tips <= 2
    /\ Forall (over tipMoves modifiers2) tips
    /\ NoDup (map faceOf tips)
    /\ 8 <= List.length (tokens out) <= 12.
Proof.
  pose proof total_generatePyraminx_shape as H.
  change (generateScramble "Pyraminx") with generatePyraminxScramble.
  destruct (H s p) as (out & next & E & st & tips & n & Htok & Hn & Hinv & Hover
                       & Hlen & Hto & Hnd).
  exists out, next, (scramble st), tips.
  pose proof (pyr_length _ _ Hinv) as Hbase.
  split; [exact E |]. split; [exact Htok |].
  split; [lia |]. split; [exact Hover |].
  split; [exact (pyr_repeat _ _ Hinv) |].
  split; [exact Hlen |]. split; [exact Hto |]. split; [exact Hnd |].
  rewrite Htok, length_app. lia.
Qed.

(* ================================================================= *)
(** ** Clock: the grammar of the tokens *)

Lemma total_clock_hours_listed (xs : list string) :
  (forall x, In x xs -> In x clock_positions) ->
  forall scr,
    total (for_of xs clock_hour scr)
          (fun scr' => exists hours,
               List.length hours = List.length xs
               /\ Forall (fun h => (0 <= h <= 6)%Z) hours
               /\ Forall (fun t => word t = true) (map hour_token (combine xs hours))
               /\ scr' = (scr ++ map hour_token (combine xs hours))%list).
Proof.
  induction xs as [| x xs IH]; intros Hsub scr; simpl.
  - apply total_ret. exists []. rewrite app_nil_r. repeat split; constructor.
  - unfold clock_hour at 1.
    eapply total_bind with
      (P := fun scr1 => exists h, (0 <= h <= 6)%Z /\ scr1 = push scr (hour_token (x, h))).
    + eapply total_bind; [apply (total_getRandomInt 0 6); lia | intros hour Hh].
      cbv beta in Hh. apply total_ret. exists hour. split; [exact Hh |].
      unfold hour_token. simpl fst. simpl snd.
      destruct (Z.leb_spec 0 hour); [reflexivity | lia].
    + intros scr1 (h & Hh & ->).
      eapply total_weaken; [apply IH; intros y Hy; apply Hsub; right; exact Hy |].
      intros scr' (hours & Hlen & Hrange & Hw & ->).
      exists (h :: hours)%list.
      split; [simpl; lia |].
      split; [constructor; assumption |].
      split.
      * simpl. constructor; [| exact Hw].
        pose proof (clock_hour_word x h (Hsub x (or_introl eq_refl)) Hh) as Hword.
        unfold hour_token. simpl fst. simpl snd.
        destruct (Z.leb_spec 0 h); [exact Hword | lia].
      * unfold push. rewrite <- app_assoc. reflexivity.
Qed.

Lemma pin_token_parses (ur dr dl ul : string) :
  In ur ["u"; "d"] -> In dr ["u"; "d"] -> In dl ["u"; "d"] -> In ul ["u"; "d"] ->
  word (pin_token ur dr dl ul) = true
  /\ pin_values (pin_token ur dr dl ul) = [ur; dr; dl; ul].
Proof.
  intros Hur Hdr Hdl Hul.
  each_member Hur; each_member Hdr; each_member Hdl; each_member Hul;
    split; reflexivity.
Qed.

(** X8.  On every stream a Clock scramble reads: a pin token [(p,p,p,p)]
    whose four pins are each [u] or [d], never all four [u]; the five
    positions UL, UR, DR, DL, ALL in this order, each followed by a plus
    sign and an hour from 0 to 6; [y2]; and the five positions again in the
    same way.  Reading the pin token back gives the four pins. *)
Theorem generateClock_token_grammar (s : stream) (p : nat) :
  exists out next ur dr dl ul hours1 hours2,
    generateScramble "Clock" s p = Done out next
    /\ tokens out
       = (pin_token ur dr dl ul
          :: map hour_token (combine clock_positions hours1)
             ++ "y2" :: map hour_token (combine clock_positions hours2))%list
    /\ Forall (fun pin => In pin ["u"; "d"]) [ur; dr; dl; ul]
    /\ 1 <= count_down [ur; dr; dl; ul]
    /\ pin_values (pin_token ur dr dl ul) = [ur; dr; dl; ul]
    /\ List.length hours1 = 5 /\ List.length hours2 = 5
    /\ Forall (fun h => (0 <= h <= 6)%Z) (hours1 ++ hours2).
Proof.
  assert (H : total generateClockScramble
                (fun out => exists ur dr dl ul hours1 hours2,
                     tokens out
                     = (pin_token ur dr dl ul
                        :: map hour_token (combine clock_positions hours1)
                           ++ "y2" :: map hour_token (combine clock_positions hours2))%list
                     /\ Forall (fun pin => In pin ["u"; "d"]) [ur; dr; dl; ul]
                     /\ 1 <= count_down [ur; dr; dl; ul]
                     /\ List.length hours1 = 5 /\ List.length hours2 = 5
                     /\ Forall (fun h => (0 <= h <= 6)%Z) (hours1 ++ hours2))).
  { unfold generateClockScramble.
    eapply total_bind; [apply total_getRandomElement; discriminate | intros ur Hur].
    eapply total_bind; [apply total_getRandomElement; discriminate | intros dr Hdr].
    eapply total_bind; [apply total_getRandomElement; discriminate | intros dl Hdl].
    eapply total_bind; [apply total_getRandomElement; discriminate | intros ul Hul].
    eapply total_bind with
      (P := fun pins => exists a b c d,
                pins = [("UR", a); ("DR", b); ("DL", c); ("UL", d)]
                /\ Forall (fun pin => In pin ["u"; "d"]) [a; b; c; d]
                /\ 1 <= count_down [a; b; c; d]).
    { simpl in Hur, Hdr, Hdl, Hul.
      destruct Hur as [<- | [<- | []]]; destruct Hdr as [<- | [<- | []]];
        destruct Hdl as [<- | [<- | []]]; destruct Hul as [<- | [<- | []]];
        cbn [map snd filter String.eqb Ascii.eqb Bool.eqb List.length Nat.ltb Nat.leb lookup];
        try (apply total_ret; eexists _, _, _, _;
             split; [reflexivity | split; [pins_listed | vm_compute; lia]]);
        (eapply total_bind; [apply total_getRandomElement; discriminate |];
         intros pos Hpos; simpl in Hpos;
         repeat (destruct Hpos as [<- | Hpos]); try contradiction;
         apply total_ret; eexists _, _, _, _;
         (split; [reflexivity | split; [pins_listed | vm_compute; lia]])). }
    intros pins (a & b & c & d & -> & Hpins & Hdown).
    change (render (lookup "UR" [("UR", a); ("DR", b); ("DL", c); ("UL", d)])) with a.
    change (render (lookup "DR" [("UR", a); ("DR", b); ("DL", c); ("UL", d)])) with b.
    change (render (lookup "DL" [("UR", a); ("DR", b); ("DL", c); ("UL", d)])) with c.
    change (render (lookup "UL" [("UR", a); ("DR", b); ("DL", c); ("UL", d)])) with d.
    eapply total_bind; [apply total_clock_hours_listed; auto |].
    intros scr1 (hours1 & Hlen1 & Hr1 & Hw1 & ->).
    eapply total_bind; [apply total_clock_hours_listed; auto |].
    intros scr2 (hours2 & Hlen2 & Hr2 & Hw2 & ->).
    apply total_ret. exists a, b, c, d, hours1, hours2.
    inversion Hpins as [| ? ? Ha Hp1]; subst. inversion Hp1 as [| ? ? Hb Hp2]; subst.
    inversion Hp2 as [| ? ? Hc Hp3]; subst. inversion Hp3 as [| ? ? Hd _]; subst.
    destruct (pin_token_parses a b c d Ha Hb Hc Hd) as [Hword _].
    split.
    - rewrite tokens_join.
      + unfold push. rewrite <- !app_assoc. reflexivity.
      + unfold push. apply Forall_app. split; [| exact Hw2].
        apply Forall_app. split; [| constructor; [reflexivity | constructor]].
        apply Forall_app. split; [| exact Hw1].
        constructor; [exact Hword | constructor].
    - split; [exact Hpins |]. split; [exact Hdown |].
      split; [exact Hlen1 |]. split; [exact Hlen2 |].
      apply Forall_app. split; assumption. }
  change (generateScramble "Clock") with generateClockScramble.
  destruct (H s p) as (out & next & E & ur & dr & dl & ul & hours1 & hours2
                       & Htok & Hpins & Hdown & Hl1 & Hl2 & Hr).
  exists out, next, ur, dr, dl, ul, hours1, hours2.
  split; [exact E |]. split; [exact Htok |]. split; [exact Hpins |].
  split; [exact Hdown |].
  split; [| auto].
  inversion Hpins as [| ? ? Ha Hp1]; subst. inversion Hp1 as [| ? ? Hb Hp2]; subst.
  inversion Hp2 as [| ? ? Hc Hp3]; subst. inversion Hp3 as [| ? ? Hd _]; subst.
  apply pin_token_parses; assumption.
Qed.

(* ================================================================= *)
(** ** Custom 2x2: the adjusted count, and no face twice in a row *)






(* ================================================================= *)
(** ** Custom 3x3: no face twice in a row, no axis twice in a row *)








(* ================================================================= *)
(** ** Custom generators: the retry loop has no bound *)

Lemma sampleFace_stuck (fuel : nat) (faces : list string) (reject : string -> bool)
    (q : Q) (face : string) (p : nat) :
  nth_error faces (pick (List.length faces) q) = Some face -> reject face = true ->
  sampleFace fuel faces reject (fun _ => q) p = Fail OutOfFuel.
Proof.
  intros Hface Hrej. revert p.
  induction fuel as [| fuel IH]; intros p; simpl; [reflexivity |].
  unfold bind. rewrite getRandomElement_pick. cbv beta. rewrite Hface, Hrej.
  apply IH.
Qed.

Lemma sampleFace_first (fuel : nat) (faces : list string) (reject : string -> bool)
    (q : Q) (face : string) (p : nat) :
  nth_error faces (pick (List.length faces) q) = Some face -> reject face = false ->
  sampleFace (S fuel) faces reject (fun _ => q) p = Done face (S p).
Proof.
  intros Hface Hrej. simpl. unfold bind.
  rewrite getRandomElement_pick. cbv beta. rewrite Hface, Hrej. reflexivity.
Qed.

Lemma constant_pick {T} (array : list T) (q : Q) :
  array <> [] -> exists x, nth_error array (pick (List.length array) q) = Some x /\ In x array.
Proof.
  intros Hne. pose proof (pick_in_range array q Hne) as Hlt.
  apply nth_error_Some in Hlt. fold (pick (List.length array) q) in Hlt.
  destruct (nth_error array (pick (List.length array) q)) as [x |] eqn:E; [| congruence].
  exists x. split; [reflexivity | eapply nth_error_In; exact E].
Qed.

Lemma for_loop_stuck {St} (n i : nat) (body : nat -> St -> Gen St) (st st' : St)
    (s : stream) (p p' : nat) (e : failure) :
  body i st s p = Done st' p' -> body (S i) st' s p' = Fail e ->
  for_loop (S (S n)) i body st s p = Fail e.
Proof. intros E1 E2. simpl. unfold bind. rewrite E1, E2. reflexivity. Qed.

Lemma for_loop_fails {St} (n i : nat) (body : nat -> St -> Gen St) (st : St)
    (s : stream) (p : nat) (e : failure) :
  body i st s p = Fail e -> for_loop (S n) i body st s p = Fail e.
Proof. intros E. simpl. unfold bind. rewrite E. reflexivity. Qed.

Lemma rejected_same (lastAxis face : string) : rejected face lastAxis face = true.
Proof. unfold rejected. rewrite String.eqb_refl. reflexivity. Qed.

Lemma rejected_at_start (face : string) : face <> "" -> rejected "" "" face = false.
Proof.
  intros Hne. unfold rejected.
  change (lookup "" opposites) with (@None string). change (truthy "") with false.
  apply String.eqb_neq in Hne. rewrite Hne. reflexivity.
Qed.

Lemma custom3x3_hangs (difficulty : string) (n fuel p : nat) (q : Q) :
  for_loop (S (S n)) 0
    (bodyCustom3x3 fuel (facesFor difficulty) (modifiersFor difficulty))
    (mkCustom [] "" "") (fun _ => q) p
  = Fail OutOfFuel.
Proof.
  destruct fuel as [| fuel]; [apply for_loop_fails; reflexivity |].
  destruct (constant_pick (facesFor difficulty) q (facesFor_nonempty difficulty))
    as (face & Hface & Hin).
  destruct (constant_pick (modifiersFor difficulty) q (modifiersFor_nonempty difficulty))
    as (m & Hm & _).
  pose proof (letters_nonempty _ _ (letters_facesFor difficulty) Hin) as Hne.
  eapply for_loop_stuck.
  - unfold bodyCustom3x3, bind. cbn [lastFace lastAxis customScramble].
    rewrite (sampleFace_first fuel _ _ q face p Hface (rejected_at_start face Hne)).
    rewrite getRandomElement_pick. cbv beta. rewrite Hm. reflexivity.
  - unfold bodyCustom3x3, bind. cbn [lastFace lastAxis customScramble].
    rewrite (sampleFace_stuck (S fuel) _ _ q face _ Hface (rejected_same _ face)).
    reflexivity.
Qed.

Lemma custom2x2_hangs (difficulty : string) (n fuel p : nat) (q : Q) :
  for_loop (S (S n)) 0 (bodyCustom2x2 fuel (modifiers2x2For difficulty)) ([], "")
    (fun _ => q) p
  = Fail OutOfFuel.
Proof.
  destruct fuel as [| fuel]; [apply for_loop_fails; reflexivity |].
  assert (Hfaces : moves2x2 <> []) by discriminate.
  destruct (constant_pick moves2x2 q Hfaces) as (face & Hface & Hin).
  destruct (constant_pick (modifiers2x2For difficulty) q
              (modifiers2x2For_nonempty difficulty)) as (m & Hm & _).
  pose proof (letters_nonempty _ _ letters_moves2x2 Hin) as Hne.
  apply String.eqb_neq in Hne.
  eapply for_loop_stuck.
  - unfold bodyCustom2x2, bind. cbn [fst snd].
    rewrite (sampleFace_first fuel moves2x2 (fun f => f =? "") q face p Hface Hne).
    rewrite getRandomElement_pick. cbv beta. rewrite Hm. reflexivity.
  - unfold bodyCustom2x2, bind. cbn [fst snd].
    rewrite (sampleFace_stuck (S fuel) moves2x2 (fun f => f =? face) q face _ Hface
               (String.eqb_refl face)).
    reflexivity.
Qed.

(** X11.  The retry loops of the custom generators have no bound of their
    own.  When [Math.random()] returns the same number at every call, a
    custom 3x3 or custom 2x2 scramble of two moves or more is never
    returned: the second pass draws the face of the first pass again and
    again, and no retry budget, however large, lets the call finish.  This
    holds for every difficulty and from every position of the stream. *)
Theorem custom_generators_hang_on_constant_draws (difficulty : string) (moves : Z)
    (q : Q) (fuel p : nat) :
  (2 <= moves)%Z ->
  generateCustom3x3Scramble fuel (Some moves) (Some difficulty) (fun _ => q) p
  = Fail OutOfFuel
  /\ generateCustom2x2Scramble fuel (Some moves) (Some difficulty) (fun _ => q) p
     = Fail OutOfFuel.
Proof.
  intros Hmoves. split.
  - unfold generateCustom3x3Scramble. simpl defaulting.
    destruct (Z.to_nat moves) as [| [| n]] eqn:E; [lia | lia |].
    unfold bind. rewrite custom3x3_hangs. reflexivity.
  - unfold generateCustom2x2Scramble. simpl defaulting.
    assert (Hadj : (2 <= adjustMoves moves difficulty)%Z).
    { unfold adjustMoves.
      destruct (difficulty =? "easy"); [lia |].
      destruct (difficulty =? "hard"); lia. }
    destruct (Z.to_nat (adjustMoves moves difficulty)) as [| [| n]] eqn:E; [lia | lia |].
    unfold bind. rewrite custom2x2_hangs. reflexivity.
Qed.

Lemma custom_generators_hang_on_constant_draws_witness :
  generateCustom3x3Scramble 1000 (Some 20%Z) (Some "hard") (fun _ => (1 # 3)%Q) 0
  = Fail OutOfFuel
  /\ generateCustom2x2Scramble 1000 (Some 20%Z) (Some "hard") (fun _ => (1 # 3)%Q) 0
     = Fail OutOfFuel.
Proof.
  apply (custom_generators_hang_on_constant_draws "hard" 20%Z (1 # 3)%Q 1000 0). lia.
Defined.

(** C10, as the specification states it, fails: it has
    [generateCustomScramble("3x3", 0, d)] return twenty tokens on every
    stream.  The count 0 becomes 20, and the second of the twenty passes
    never ends when every draw is the same number: no retry budget lets the
    call return, whatever the difficulty.  With every draw [0] nothing is
    returned, so no string of twenty tokens either. *)
Lemma zero_count_never_returns_on_constant_draws :
  (forall (q : Q) (fuel : nat) (difficulty : option string) (p : nat),
      generateCustomScramble fuel "3x3" (Some 0%Z) difficulty (fun _ => q) p
      = Fail OutOfFuel)
  /\ (forall fuel,
         generateCustomScramble fuel "3x3" (Some 0%Z) (Some "medium") zeros 0
         = Fail OutOfFuel)
  /\ ~ (exists fuel out next,
          generateCustomScramble fuel "3x3" (Some 0%Z) (Some "medium") zeros 0
          = Done out next
          /\ List.length (tokens out) = 20).
Proof.
  assert (H : forall (q : Q) (fuel : nat) (difficulty : option string) (p : nat),
             generateCustomScramble fuel "3x3" (Some 0%Z) difficulty (fun _ => q) p
             = Fail OutOfFuel).
  { intros q fuel difficulty p.
    change (generateCustomScramble fuel "3x3" (Some 0%Z) difficulty)
      with (generateCustom3x3Scramble fuel (Some 20%Z)
              (Some (defaulting difficulty "medium"))).
    unfold generateCustom3x3Scramble. simpl defaulting.
    change (Z.to_nat 20) with 20. unfold bind.
    rewrite custom3x3_hangs. reflexivity. }
  split; [exact H |].
  split; [intros fuel; exact (H 0%Q fuel (Some "medium") 0) |].
  intros (fuel & out & next & E & _).
  change zeros with (fun _ : nat => 0%Q) in E.
  rewrite (H 0%Q fuel (Some "medium") 0) in E. discriminate.
Qed.
(* ================================================================= *)
(** ** How many tokens a standard scramble has *)

Lemma total_generateScramble_range (cubeType : string) :
  total (generateScramble cubeType)
        (fun out => within (token_range cubeType) (List.length (tokens out))).
Proof.
  assert (H3 : total generate3x3Scramble
                 (fun out => within (20, 20) (List.length (tokens out)))).
  { eapply total_weaken; [apply total_generate3x3 |].
    intros out (st & Hinv & ->). rewrite (inv_length _ _ _ Hinv).
    unfold within. simpl. lia. }
  assert (H2 : total generate2x2Scramble
                 (fun out => within (9, 11) (List.length (tokens out)))).
  { eapply total_weaken; [apply total_generate2x2 |].
    intros out (n & st & Hn & Hinv & ->). rewrite (inv_length _ _ _ Hinv).
    unfold within. simpl. lia. }
  assert (HP : total generatePyraminxScramble
                 (fun out => within (8, 12) (List.length (tokens out)))).
  { eapply total_weaken; [apply total_generatePyraminx_shape |].
    intros out (st & tips & n & -> & Hn & Hinv & _ & Hlen & _).
    rewrite length_app, (pyr_length _ _ Hinv). unfold within. simpl. lia. }
  assert (HS : total generateSkewbScramble
                 (fun out => within (9, 9) (List.length (tokens out)))).
  { eapply total_weaken; [apply total_generateSkewb_chain |].
    intros out (st & Hinv & ->). rewrite (chain_length _ _ _ _ Hinv).
    unfold within. simpl. lia. }
  assert (HC : total generateClockScramble
                 (fun out => within (12, 12) (List.length (tokens out)))).
  { eapply total_weaken; [apply total_clock |].
    intros out (pin & hs1 & hs2 & -> & H1 & H2').
    cbn [List.length]. rewrite length_app. cbn [List.length]. rewrite H1, H2'.
    unfold within. simpl. lia. }
  unfold generateScramble, token_range, generate3x3BLDScramble, generate3x3OHScramble.
  destruct (String.eqb_spec cubeType cubeTypes.THREE) as [-> | _]; [exact H3 |].
  destruct (cubeType =? cubeTypes.TWO); [exact H2 |].
  destruct (cubeType =? cubeTypes.PYRAMINX); [exact HP |].
  destruct (cubeType =? cubeTypes.SKEWB); [exact HS |].
  destruct (cubeType =? cubeTypes.CLOCK); [exact HC |].
  destruct (cubeType =? cubeTypes.THREE_BLD); [exact H3 |].
  destruct (cubeType =? cubeTypes.THREE_OH); exact H3.
Qed.

(* ================================================================= *)
(** ** The weekly schedule *)

Lemma schedule_table (getDay : nat) :
  getDay < 7 ->
  exists key name t,
    nth_error dayKeys getDay = Some key
    /\ nth_error dayNames getDay = Some name
    /\ toLowerCase name = toLowerCase key
    /\ lookup key daySchedule = Some t
    /\ getCubeTypeForDay getDay = Str t
    /\ In t labels.
Proof.
  intros Hlt.
  do 7 (destruct getDay as [| getDay];
        [eexists _, _, _; repeat (split; [reflexivity |]); simpl; auto 10 |]).
  lia.
Qed.

Lemma schedule_injective (d d' : nat) (t : string) :
  d < 7 -> d' < 7 ->
  getCubeTypeForDay d = Str t -> getCubeTypeForDay d' = Str t -> d = d'.
Proof.
  intros Hd Hd' E E'. rewrite <- E' in E. clear E' t.
  do 7 (destruct d as [| d]; [do 7 (destruct d' as [| d']; [reflexivity || discriminate |]); lia |]).
  lia.
Qed.

(** X12.  The weekly schedule gives every day of the week one of the seven
    puzzle types, no type to two days, and so every type to exactly one day.
    On every stream [generateDailyScramble] returns for such a day: the day
    name it reports is the name of the key the schedule was read under, the
    cube type is the scheduled one (also the thread title), and the scramble
    has the number of tokens of that type: 12 for Clock, 9 for Skewb, 9 to
    11 for 2x2, 8 to 12 for Pyraminx, 20 for the three 3x3 events. *)
Theorem generateDailyScramble_by_weekday (getDay : nat) (s : stream) (p : nat) :
  getDay < 7 ->
  (exists r next key name t,
      generateDailyScramble getDay s p = Done r next
      /\ nth_error dayKeys getDay = Some key
      /\ lookup key daySchedule = Some t
      /\ daily_day r = Some name /\ toLowerCase name = toLowerCase key
      /\ daily_cubeType r = Str t /\ generateThreadTitle getDay = Str t
      /\ In t labels
      /\ within (token_range t) (List.length (tokens (daily_scramble r)))
      /\ (forall d, d < 7 -> getCubeTypeForDay d = Str t -> d = getDay))
  /\ (forall t, In t labels -> exists d, d < 7 /\ getCubeTypeForDay d = Str t).
Proof.
  intros Hlt. split.
  - destruct (schedule_table getDay Hlt) as (key & name & t & Hk & Hn & Hkn & Hl & Ht & Hin).
    destruct (total_generateScramble_range t s p) as (out & next & E & Hr).
    exists (mkDaily (Some name) (Str t) out), next, key, name, t.
    split.
    { unfold generateDailyScramble, bind. rewrite Ht, Hn. cbn [generateScrambleOf].
      rewrite E. reflexivity. }
    cbn [daily_day daily_cubeType daily_scramble].
    repeat (split; [first [assumption | reflexivity] |]).
    intros d Hd Hd'. apply (schedule_injective d getDay t); assumption.
  - intros t Hin. unfold labels in Hin.
    each_member Hin;
      [exists 3 | exists 4 | exists 2 | exists 6 | exists 5 | exists 1 | exists 0];
      (split; [lia | reflexivity]).
Qed.

Lemma generateDailyScramble_by_weekday_witness :
  (exists r next key name t,
      generateDailyScramble 0 sixteenths 0 = Done r next
      /\ nth_error dayKeys 0 = Some key
      /\ lookup key daySchedule = Some t
      /\ daily_day r = Some name /\ toLowerCase name = toLowerCase key
      /\ daily_cubeType r = Str t /\ generateThreadTitle 0 = Str t
      /\ In t labels
      /\ within (token_range t) (List.length (tokens (daily_scramble r)))
      /\ (forall d, d < 7 -> getCubeTypeForDay d = Str t -> d = 0))
  /\ (forall t, In t labels -> exists d, d < 7 /\ getCubeTypeForDay d = Str t).
Proof. apply (generateDailyScramble_by_weekday 0 sixteenths 0). lia. Defined.

(* ================================================================= *)
(** ** stringToCubeType *)

Lemma lower_not_upper (c : ascii) : upper (lower c) = false.
Proof. destruct c as [[] [] [] [] [] [] [] []]; reflexivity. Qed.

Lemma has_upper_toLowerCase (s : string) : has_upper (toLowerCase s) = false.
Proof.
  induction s as [| c s IH]; simpl; [reflexivity |].
  rewrite lower_not_upper, IH. reflexivity.
Qed.

Lemma has_upper_trimStart (s : string) :
  has_upper s = false -> has_upper (trimStart s) = false.
Proof.
  induction s as [| c s IH]; simpl; [auto |].
  intros H. apply orb_false_iff in H. destruct H as [Hc Hs].
  destruct (blank c); [apply IH; exact Hs |].
  simpl. rewrite Hc, Hs. reflexivity.
Qed.

Lemma has_upper_trimEnd (s : string) :
  has_upper s = false -> has_upper (trimEnd s) = false.
Proof.
  induction s as [| c s IH]; simpl; [auto |].
  intros H. apply orb_false_iff in H. destruct H as [Hc Hs].
  specialize (IH Hs).
  destruct (trimEnd s) as [| c' kept].
  - destruct (blank c); simpl; [reflexivity | rewrite Hc; reflexivity].
  - change (has_upper (String c (String c' kept)))
      with (upper c || has_upper (String c' kept)).
    rewrite Hc, IH. reflexivity.
Qed.

Lemma has_upper_normalize (s : string) : has_upper (normalize s) = false.
Proof.
  unfold normalize, trim.
  apply has_upper_trimEnd, has_upper_trimStart, has_upper_toLowerCase.
Qed.

Lemma lookup_None {V} (key : string) (table : list (string * V)) :
  ~ In key (map fst table) -> lookup key table = None.
Proof.
  induction table as [| [k v] rest IH]; simpl; [reflexivity |].
  intros H. destruct (String.eqb_spec k key) as [-> | _].
  - exfalso. apply H. left. reflexivity.
  - apply IH. intros Hin. apply H. right. exact Hin.
Qed.

Lemma knownTypes_own (key t : string) :
  In (key, t) knownTypes -> get knownTypes key = Str t /\ In t labels.
Proof.
  intros H. simpl in H.
  repeat (destruct H as [H | H];
          [injection H as <- <-; split; [reflexivity | simpl; auto 10] |]).
  contradiction.
Qed.

Lemma inherited_lower_case (key : string) :
  has_upper key = false -> includes Object_prototype key = true ->
  In key ["constructor"; "__proto__"].
Proof.
  intros Hup Hin. apply includes_In in Hin. simpl in Hin.
  repeat (destruct Hin as [Hin | Hin];
          [subst key; first [discriminate Hup | simpl; auto] |]).
  contradiction.
Qed.

Lemma knownTypes_get (key : string) :
  has_upper key = false ->
  (exists t, get knownTypes key = Str t /\ In t labels)
  \/ (get knownTypes key = Inherited key /\ In key ["constructor"; "__proto__"])
  \/ (get knownTypes key = Undefined /\ ~ In key (map fst knownTypes)).
Proof.
  intros Hup. unfold get.
  destruct (lookup key knownTypes) as [t |] eqn:E.
  - left. exists t. apply lookup_In in E.
    destruct (knownTypes_own key t E) as [_ Hl]. split; [reflexivity | exact Hl].
  - right. destruct (includes Object_prototype key) eqn:Ei.
    + left. split; [reflexivity | apply inherited_lower_case; assumption].
    + right. split; [reflexivity |].
      intros Hin. apply in_map_iff in Hin. destruct Hin as ([k t] & <- & Hin).
      destruct (knownTypes_own k t Hin) as [Hget _].
      unfold get in Hget. cbn [fst] in E, Ei. rewrite E, Ei in Hget. discriminate.
Qed.

Lemma labels_truthy (t : string) : In t labels -> truthy t = true.
Proof. intros H. unfold labels in H. each_member H; reflexivity. Qed.

Lemma stringToCubeType_cases (cubeTypeStr : string) :
  (exists t, stringToCubeType cubeTypeStr = Str t /\ In t labels)
  \/ (stringToCubeType cubeTypeStr = Inherited (normalize cubeTypeStr)
      /\ In (normalize cubeTypeStr) ["constructor"; "__proto__"]).
Proof.
  unfold stringToCubeType. cbv zeta.
  destruct (knownTypes_get (normalize cubeTypeStr) (has_upper_normalize cubeTypeStr))
    as [(t & -> & Hl) | [(-> & Hin) | (-> & _)]].
  - left. exists t. simpl. rewrite (labels_truthy t Hl). split; [reflexivity | exact Hl].
  - right. split; [reflexivity | exact Hin].
  - left. exists cubeTypes.THREE. split; [reflexivity | simpl; auto 10].
Qed.

(** X13.  [stringToCubeType] on a string of code units below 128, by what
    the string is once lower-cased and trimmed: one of the fourteen keys of
    the alias table gives the type listed for it; in particular each of the
    seven canonical labels is recognised in any mix of cases and between any
    blanks; ["constructor"] and ["__proto__"] give the member inherited
    from [Object.prototype], which is not a string; everything else gives
    ["3x3"]. *)
Theorem stringToCubeType_by_normalized_input (cubeTypeStr : string) :
  ascii_only cubeTypeStr = true ->
  (forall key t, In (key, t) knownTypes -> normalize cubeTypeStr = key ->
                 stringToCubeType cubeTypeStr = Str t)
  /\ (forall label, In label labels -> normalize cubeTypeStr = toLowerCase label ->
                    stringToCubeType cubeTypeStr = Str label)
  /\ (In (normalize cubeTypeStr) ["constructor"; "__proto__"] ->
      stringToCubeType cubeTypeStr = Inherited (normalize cubeTypeStr))
  /\ (~ In (normalize cubeTypeStr) (map fst knownTypes) ->
      ~ In (normalize cubeTypeStr) ["constructor"; "__proto__"] ->
      stringToCubeType cubeTypeStr = Str cubeTypes.THREE).
Proof.
  intros _.
  assert (Hown : forall key t, In (key, t) knownTypes -> normalize cubeTypeStr = key ->
                               stringToCubeType cubeTypeStr = Str t).
  { intros key t Hin E. unfold stringToCubeType. cbv zeta. rewrite E.
    destruct (knownTypes_own key t Hin) as [-> Hl].
    simpl. rewrite (labels_truthy t Hl). reflexivity. }
  split; [exact Hown |]. split; [| split].
  - intros label Hin E. apply (Hown (toLowerCase label)); [| exact E].
    unfold labels in Hin. each_member Hin; simpl; auto 20.
  - intros Hin. unfold stringToCubeType. cbv zeta.
    simpl in Hin. destruct Hin as [<- | [<- | []]]; reflexivity.
  - intros Hk Hp. unfold stringToCubeType, get. cbv zeta.
    rewrite (lookup_None _ _ Hk).
    destruct (includes Object_prototype (normalize cubeTypeStr)) eqn:Ei; [| reflexivity].
    exfalso. apply Hp, inherited_lower_case; [apply has_upper_normalize | exact Ei].
Qed.

Lemma stringToCubeType_by_normalized_input_witness :
  (forall key t, In (key, t) knownTypes -> normalize "  PyRaMiNx " = key ->
                 stringToCubeType "  PyRaMiNx " = Str t)
  /\ (forall label, In label labels -> normalize "  PyRaMiNx " = toLowerCase label ->
                    stringToCubeType "  PyRaMiNx " = Str label)
  /\ (In (normalize "  PyRaMiNx ") ["constructor"; "__proto__"] ->
      stringToCubeType "  PyRaMiNx " = Inherited (normalize "  PyRaMiNx "))
  /\ (~ In (normalize "  PyRaMiNx ") (map fst knownTypes) ->
      ~ In (normalize "  PyRaMiNx ") ["constructor"; "__proto__"] ->
      stringToCubeType "  PyRaMiNx " = Str cubeTypes.THREE).
Proof. apply (stringToCubeType_by_normalized_input "  PyRaMiNx "). reflexivity. Defined.

Example stringToCubeType_examples :
  map stringToCubeType [" CLK "; "3x3 BLD"; "3X3 oh"; "megaminx"; "Constructor"; "toString"]
  = [Str "Clock"; Str "3x3 BLD"; Str "3x3 OH"; Str "3x3"; Inherited "constructor";
     Str "3x3"].
Proof. reflexivity. Qed.

(* ================================================================= *)
(** ** Scrambles by type name *)

(** X14.  [generateScrambleForType] returns on every stream, whatever string
    of code units below 128 it is given.  Either the cube type it reports is
    one of the seven labels and the scramble has the number of tokens of
    that type, or the input reads ["constructor"] or ["__proto__"] once
    lower-cased and trimmed: then the reported cube type is no string at all
    and the scramble is a 3x3 scramble of 20 tokens. *)
Theorem generateScrambleForType_always_returns (cubeType : string) (s : stream) (p : nat) :
  ascii_only cubeType = true ->
  exists r next,
    generateScrambleForType cubeType s p = Done r next
    /\ typed_cubeType r = stringToCubeType cubeType
    /\ ((exists t, typed_cubeType r = Str t /\ In t labels
                   /\ within (token_range t) (List.length (tokens (typed_scramble r))))
        \/ (typed_cubeType r = Inherited (normalize cubeType)
            /\ In (normalize cubeType) ["constructor"; "__proto__"]
            /\ List.length (tokens (typed_scramble r)) = 20)).
Proof.
  intros _. unfold generateScrambleForType, bind. cbv zeta.
  destruct (stringToCubeType_cases cubeType) as [(t & -> & Hl) | (-> & Hin)].
  - cbn [generateScrambleOf].
    destruct (total_generateScramble_range t s p) as (out & next & -> & Hr).
    eexists _, next. split; [reflexivity |]. split; [reflexivity |].
    left. exists t. cbn [typed_cubeType typed_scramble]. auto.
  - cbn [generateScrambleOf].
    destruct (total_generate3x3 s p) as (out & next & -> & st & Hinv & Htok).
    eexists _, next. split; [reflexivity |]. split; [reflexivity |].
    right. cbn [typed_cubeType typed_scramble].
    split; [reflexivity |]. split; [exact Hin |].
    rewrite Htok. exact (inv_length _ _ _ Hinv).
Qed.

Lemma generateScrambleForType_always_returns_witness :
  exists r next,
    generateScrambleForType "__PROTO__" zeros 0 = Done r next
    /\ typed_cubeType r = stringToCubeType "__PROTO__"
    /\ ((exists t, typed_cubeType r = Str t /\ In t labels
                   /\ within (token_range t) (List.length (tokens (typed_scramble r))))
        \/ (typed_cubeType r = Inherited (normalize "__PROTO__")
            /\ In (normalize "__PROTO__") ["constructor"; "__proto__"]
            /\ List.length (tokens (typed_scramble r)) = 20)).
Proof. apply (generateScrambleForType_always_returns "__PROTO__" zeros 0). reflexivity. Defined.

(** X15.  For Pyraminx, Skewb and Clock the custom parameters change nothing:
    whatever move count and difficulty are asked for, and whatever the retry
    budget, [generateCustomScrambleForType] returns the scramble that
    [generateScrambleForType] returns on the same stream, with the token
    count of the standard scramble, reads the same number of draws, and only
    reports the requested parameters back. *)
Theorem custom_parameters_ignored_off_the_cubes (cubeType : string) (fuel : nat)
    (moves : option Z) (difficulty : option string) (s : stream) (p : nat) :
  ascii_only cubeType = true ->
  In (stringToCubeType cubeType)
     [Str cubeTypes.PYRAMINX; Str cubeTypes.SKEWB; Str cubeTypes.CLOCK] ->
  exists r next t,
    generateScrambleForType cubeType s p = Done r next
    /\ typed_cubeType r = Str t
    /\ within (token_range t) (List.length (tokens (typed_scramble r)))
    /\ generateCustomScrambleForType fuel cubeType moves difficulty s p
       = Done (mkCustomResult (Str t) (typed_scramble r) (orDefault moves)
                 (defaulting difficulty "medium")) next.
Proof.
  intros _ Hin.
  unfold generateScrambleForType, generateCustomScrambleForType, bind. cbv zeta.
  simpl in Hin. destruct Hin as [<- | [<- | [<- | []]]];
    cbn [generateScrambleOf generateCustomScrambleOf];
    match goal with
    | |- context [generateScramble ?t s p] =>
        change (generateCustomScramble fuel t moves (Some (defaulting difficulty "medium")))
          with (generateScramble t);
        destruct (total_generateScramble_range t s p) as (out & next & -> & Hr);
        eexists _, next, t
    end;
    (split; [reflexivity |]); (split; [reflexivity |]);
    (split; [exact Hr | reflexivity]).
Qed.

Lemma custom_parameters_ignored_off_the_cubes_witness :
  exists r next t,
    generateScrambleForType "clk" sixteenths 0 = Done r next
    /\ typed_cubeType r = Str t
    /\ within (token_range t) (List.length (tokens (typed_scramble r)))
    /\ generateCustomScrambleForType 0 "clk" (Some 30%Z) (Some "hard") sixteenths 0
       = Done (mkCustomResult (Str t) (typed_scramble r)
                 (orDefault (Some 30%Z)) (defaulting (Some "hard") "medium")) next.
Proof.
  apply (custom_parameters_ignored_off_the_cubes "clk" 0 (Some 30%Z) (Some "hard")
           sixteenths 0); [reflexivity | simpl; auto].
Defined.
(* ================================================================= *)
(** ** Custom scrambles by type name *)







(* ================================================================= *)
(** ** 3x3 and 2x2: the fallback of the candidate list *)

Lemma cube_inv_shape (moves : list string) (k : nat) (st : tracking) :
  cube_inv moves k st ->
  (k = 0 /\ lastMove st = "" /\ secondLastMove st = "")
  \/ (k = 1 /\ In (lastMove st) moves /\ secondLastMove st = "")
  \/ (2 <= k /\ In (lastMove st) moves /\ In (secondLastMove st) moves
      /\ same_axis (secondLastMove st) (lastMove st) = false).
Proof.
  intros [Hlen _ Hfaces Hends Haxis _].
  rewrite <- Hlen, <- (length_map faceOf).
  remember (map faceOf (scramble st)) as l eqn:El. clear El Hlen.
  destruct Hends as [| a | l b a].
  - left. auto.
  - right. left. inversion Hfaces; subst. auto.
  - right. right. apply Forall_app in Hfaces. destruct Hfaces as [_ Hfaces].
    inversion Hfaces as [| ? ? Hb Hrest]; subst. inversion Hrest as [| ? ? Ha _]; subst.
    split; [rewrite length_app; simpl; lia |]. split; [exact Ha |]. split; [exact Hb |].
    apply (Haxis (List.length l)).
    + rewrite nth_error_app2 by lia. rewrite Nat.sub_diag. reflexivity.
    + rewrite nth_error_app2 by lia.
      replace (List.length l + 1 - List.length l) with 1 by lia. reflexivity.
Qed.

Lemma candidates3x3_count (k : nat) (st : tracking) :
  cube_inv moves3x3 k st ->
  List.length (candidates3x3 st) = match k with 0 => 6 | 1 => 4 | _ => 3 end
  /\ relax moves3x3 st (candidates3x3 st) = candidates3x3 st.
Proof.
  intros Hinv. destruct (cube_inv_shape _ _ _ Hinv)
    as [(-> & Hl & Hs) | [(-> & Hl & Hs) | (Hk & Hl & Hs & Hax)]];
    destruct st as [scr lm sl]; cbn [lastMove secondLastMove] in *.
  - subst. split; reflexivity.
  - subst sl. each_member Hl; split; reflexivity.
  - destruct k as [| [| k]]; [lia | lia |].
    each_member Hl; each_member Hs; try discriminate Hax; split; reflexivity.
Qed.

Lemma candidates2x2_count (k : nat) (st : tracking) :
  cube_inv moves2x2 k st ->
  List.length (candidates2x2 st) = match k with 0 => 3 | 1 => 2 | _ => 1 end
  /\ relax moves2x2 st (candidates2x2 st) = candidates2x2 st.
Proof.
  intros Hinv. destruct (cube_inv_shape _ _ _ Hinv)
    as [(-> & Hl & Hs) | [(-> & Hl & Hs) | (Hk & Hl & Hs & Hax)]];
    destruct st as [scr lm sl]; cbn [lastMove secondLastMove] in *.
  - subst. split; reflexivity.
  - subst sl. each_member Hl; split; reflexivity.
  - destruct k as [| [| k]]; [lia | lia |].
    each_member Hl; each_member Hs; try discriminate Hax; split; reflexivity.
Qed.

(** X17.  The fallback [if (availableMoves.length === 0)] of the 3x3 and 2x2
    loops never runs.  On every stream, the pass that follows [k] finished
    passes starts with a candidate list that the two filters leave
    non-empty: six faces, then four, then three from the third pass on for
    3x3; three, then two, then one for 2x2, whose face is therefore forced
    from the third move on. *)
Theorem cube_fallback_never_runs (k : nat) (s : stream) (p : nat) :
  (exists st next,
      for_loop k 0 body3x3 (mkTracking [] "" "") s p = Done st next
      /\ List.length (candidates3x3 st) = match k with 0 => 6 | 1 => 4 | _ => 3 end
      /\ relax moves3x3 st (candidates3x3 st) = candidates3x3 st)
  /\ (exists st next,
      for_loop k 0 body2x2 (mkTracking [] "" "") s p = Done st next
      /\ List.length (candidates2x2 st) = match k with 0 => 3 | 1 => 2 | _ => 1 end
      /\ relax moves2x2 st (candidates2x2 st) = candidates2x2 st).
Proof.
  split.
  - destruct (total_for_loop (cube_inv moves3x3) body3x3 body3x3_inv k 0 _
                (cube_inv_start moves3x3) s p) as (st & next & E & Hinv).
    exists st, next. split; [exact E |]. apply candidates3x3_count. exact Hinv.
  - destruct (total_for_loop (cube_inv moves2x2) body2x2 body2x2_inv k 0 _
                (cube_inv_start moves2x2) s p) as (st & next & E & Hinv).
    exists st, next. split; [exact E |]. apply candidates2x2_count. exact Hinv.
Qed.
